(** * ConditionTracker: the condition-tracker DAG of statsd

    A shallow embedding of [cmds/statsd/src/condition/ConditionTracker.h].

    The header declares the abstract base class of every condition node:
    its constructor, the three accessors it implements itself
    ([isConditionMet()], [getLogTrackerIndex()], [setSliced()]) and three
    pure-virtual operations ([init], [evaluateCondition] and the
    dimensioned [isConditionMet]) whose overriding bodies live in other
    translation units.  The first part of this file embeds the class as it
    is written; the later parts model the overriding operations. *)

From stdpp Require Import gmap strings list relations.
From Stdlib Require Import ZArith.

Local Open Scope Z_scope.

(** ** Types the header takes from headers that are not part of the sources *)

(** Modelled from the spec: [ConditionState] is declared in
    [condition/condition_util.h], which is missing.  The spec describes it
    as a tri-state value, UNKNOWN, FALSE or TRUE. *)
Inductive ConditionState : Type :=
  | kUnknown
  | kFalse
  | kTrue.

#[global] Instance ConditionState_eq_dec : EqDecision ConditionState.
Proof. solve_decision. Defined.

(** Modelled from the spec: [MatchingState] is declared in
    [matchers/matcher_util.h], which is missing.  The spec describes a
    matcher verdict as MATCHED, NOT_MATCHED or UNKNOWN. *)
Inductive MatchingState : Type :=
  | kMatched
  | kNotMatched
  | kMatchUnknown.

#[global] Instance MatchingState_eq_dec : EqDecision MatchingState.
Proof. solve_decision. Defined.

(** Modelled from the spec: [HashableDimensionKey] is missing; the spec
    describes it as an ordered tuple of field-value pairs with structural
    equality. *)
Abbreviation HashableDimensionKey := (list (string * Z)).

(** ** The class [ConditionTracker] *)

(** The six data members, in declaration order.  [mName] and [mIndex] are
    declared [const]; [mTrackerIndex] is a [std::set<int>]. *)
Record ConditionTracker : Type := mkConditionTracker {
  mName : string;
  mIndex : Z;
  mInitialized : bool;
  mTrackerIndex : gset Z;
  mNonSlicedConditionState : ConditionState;
  mSliced : bool
}.

(** Assignments to the four members that are not [const]. *)
Definition set_mInitialized (b : bool) (t : ConditionTracker) : ConditionTracker :=
  mkConditionTracker (mName t) (mIndex t) b (mTrackerIndex t)
                     (mNonSlicedConditionState t) (mSliced t).

Definition set_mTrackerIndex (s : gset Z) (t : ConditionTracker) : ConditionTracker :=
  mkConditionTracker (mName t) (mIndex t) (mInitialized t) s
                     (mNonSlicedConditionState t) (mSliced t).

Definition set_mNonSlicedConditionState (c : ConditionState) (t : ConditionTracker)
  : ConditionTracker :=
  mkConditionTracker (mName t) (mIndex t) (mInitialized t) (mTrackerIndex t)
                     c (mSliced t).

Definition set_mSliced (b : bool) (t : ConditionTracker) : ConditionTracker :=
  mkConditionTracker (mName t) (mIndex t) (mInitialized t) (mTrackerIndex t)
                     (mNonSlicedConditionState t) b.

(** A member function is a computation over the object it is called on:
    it yields a result and the object as the call leaves it. *)
Definition Method (A : Type) : Type := ConditionTracker → A * ConditionTracker.

#[global] Instance Method_ret : MRet Method := λ A a t, (a, t).
#[global] Instance Method_bind : MBind Method :=
  λ A B k m t, let '(a, t') := m t in k a t'.
Definition get {A} (f : ConditionTracker → A) : Method A := λ t, (f t, t).
Definition modify (f : ConditionTracker → ConditionTracker) : Method unit :=
  λ t, (tt, f t).

Definition result {A} (m : Method A) (t : ConditionTracker) : A := (m t).1.
Definition after {A} (m : Method A) (t : ConditionTracker) : ConditionTracker := (m t).2.

(** [ConditionTracker(const std::string& name, const int index)] *)
Definition new_ConditionTracker (name : string) (index : Z) : ConditionTracker :=
  {| mName := name;
     mIndex := index;
     mInitialized := false;
     mTrackerIndex := ∅;
     mNonSlicedConditionState := kUnknown;
     mSliced := false |}.

(** [virtual ConditionState isConditionMet() { return mNonSlicedConditionState; }] *)
Definition isConditionMet : Method ConditionState :=
  get mNonSlicedConditionState.

(** [virtual const std::set<int>& getLogTrackerIndex() const { return mTrackerIndex; }] *)
Definition getLogTrackerIndex : Method (gset Z) :=
  get mTrackerIndex.

(** In [mSliced | sliced] both [bool] operands are promoted to [int], the
    bitwise or is taken, and the assignment converts the [int] back to
    [bool] (non-zero is [true]). *)
Definition bool_to_int (b : bool) : Z := if b then 1 else 0.
Definition int_to_bool (z : Z) : bool := negb (z =? 0).

(** [virtual void setSliced(bool sliced) { mSliced = mSliced | sliced; }] *)
Definition setSliced (sliced : bool) : Method unit :=
  old ← get mSliced;
  modify (set_mSliced (int_to_bool (Z.lor (bool_to_int old) (bool_to_int sliced)))).

(** A sequence of [setSliced] calls, first element first. *)
Fixpoint setSliced_all (bs : list bool) (t : ConditionTracker) : ConditionTracker :=
  match bs with
  | [] => t
  | b :: bs' => setSliced_all bs' (after (setSliced b) t)
  end.

(** A call to one of the three member functions the class implements
    itself, and what a sequence of such calls leaves of the tracker. *)
Inductive BaseCall : Type :=
  | CallIsConditionMet
  | CallGetLogTrackerIndex
  | CallSetSliced (sliced : bool).

Definition callBase (c : BaseCall) (t : ConditionTracker) : ConditionTracker :=
  match c with
  | CallIsConditionMet => after isConditionMet t
  | CallGetLogTrackerIndex => after getLogTrackerIndex t
  | CallSetSliced sliced => after (setSliced sliced) t
  end.

Fixpoint callBase_all (cs : list BaseCall) (t : ConditionTracker) : ConditionTracker :=
  match cs with
  | [] => t
  | c :: cs' => callBase_all cs' (callBase c t)
  end.

(** The call is [setSliced(true)]. *)
Definition passesTrue (c : BaseCall) : bool :=
  match c with
  | CallSetSliced sliced => sliced
  | _ => false
  end.

(** ** Configuration and arena *)

(** Modelled from the spec: the configuration schema ([statsd_config.pb.h])
    is missing.  The spec describes two kinds of condition: an atomic one
    whose state derives from event matchers, and a combinational one that
    applies a boolean operator to named child conditions.  Descriptors
    refer to matchers and to other conditions by name. *)
Inductive LogicalOperation : Type :=
  | AND
  | OR
  | NOT.

Inductive ConditionBody : Type :=
  | SimpleCondition (matchers : list string)
  | CombinationCondition (operation : LogicalOperation) (conditions : list string).

Record Condition : Type := mkCondition {
  c_name : string;
  c_body : ConditionBody
}.

Definition directMatchers (c : Condition) : list string :=
  match c_body c with
  | SimpleCondition ms => ms
  | CombinationCondition _ _ => []
  end.

Definition childNames (c : Condition) : list string :=
  match c_body c with
  | SimpleCondition _ => []
  | CombinationCondition _ cs => cs
  end.

(** What the Initializer is given: the descriptors in arena order, the
    map from condition name to arena index and the map from matcher name
    to matcher index. *)
Record StatsdConfig : Type := mkStatsdConfig {
  allConditionConfig : list Condition;
  conditionNameIndexMap : gmap string nat;
  logTrackerMap : gmap string Z
}.

(** Modelled from the spec: the classes deriving from [ConditionTracker]
    are missing.  A node of the arena is the base-class subobject together
    with what a variant keeps of its own: the descriptor it was built
    from, the arena indices of its children (combinational nodes) and the
    state per dimension key (atomic nodes). *)
Record Node : Type := mkNode {
  base : ConditionTracker;
  config : Condition;
  mChildren : list nat;
  mSlicedConditionState : gmap HashableDimensionKey ConditionState
}.

Definition on_base (f : ConditionTracker → ConditionTracker) (n : Node) : Node :=
  mkNode (f (base n)) (config n) (mChildren n) (mSlicedConditionState n).

Definition set_mChildren (js : list nat) (n : Node) : Node :=
  mkNode (base n) (config n) js (mSlicedConditionState n).

Definition set_mSlicedConditionState
    (m : gmap HashableDimensionKey ConditionState) (n : Node) : Node :=
  mkNode (base n) (config n) (mChildren n) m.

(** Modelled from the spec: nodes are constructed from the configuration
    in one batch, node [i] from descriptor [i], with index [i]. *)
Definition buildArena (cfg : StatsdConfig) : list Node :=
  imap (λ i c, mkNode (new_ConditionTracker (c_name c) (Z.of_nat i)) c [] ∅)
       (allConditionConfig cfg).

(** ** The Initializer *)

(** The state threaded through one initialization run: the arena and the
    marker array ([stack]) of the nodes on the current path. *)
Record InitState : Type := mkInitState {
  allConditionTrackers : list Node;
  stack : list bool
}.

Definition set_stack (i : nat) (b : bool) (s : InitState) : InitState :=
  mkInitState (allConditionTrackers s) (<[i := b]> (stack s)).

(** The matcher indices a node holds after initialization ([∅] out of range). *)
Definition usedOf (trackers : list Node) (j : nat) : gset Z :=
  from_option (λ n, result getLogTrackerIndex (base n)) ∅ (trackers !! j).

Definition resolveMatchers (m : gmap string Z) (names : list string) : option (gset Z) :=
  list_to_set <$> mapM (λ name, m !! name) names.

(** Modelled from the spec: the step that ends a successful [init] of node
    [i]: the matcher sets of the dependencies are aggregated into the
    node's own set, the node's mark is cleared and [initialized] is set. *)
Definition finishInit (i : nat) (own : gset Z) (js : list nat) (s : InitState) : InitState :=
  let used := own ∪ ⋃ (usedOf (allConditionTrackers s) <$> js) in
  mkInitState
    (alter (λ n, set_mChildren js
                   (on_base (λ t, set_mInitialized true (set_mTrackerIndex used t)) n))
           i (allConditionTrackers s))
    (<[i := false]> (stack s)).

(** Modelled from the spec: the dependencies of a node are initialized in
    order.  A name that does not resolve is a failure; before descending
    into the child at index [j] the marker array is checked at [j], and a
    marked slot is a cycle (a slot outside the array fails as well); a
    child that fails makes the parent fail.  The result is [None] when the
    recursion budget of [initChild] is exhausted, [Some (None, s)] on
    failure and [Some (Some js, s)] with the resolved indices on
    success. *)
Fixpoint initChildren (initChild : nat → InitState → option (bool * InitState))
    (names : gmap string nat) (children : list string) (s : InitState)
  : option (option (list nat) * InitState) :=
  match children with
  | [] => Some (Some [], s)
  | child :: rest =>
      match names !! child with
      | None => Some (None, s)
      | Some j =>
          match stack s !! j with
          | Some false =>
              match initChild j s with
              | None => None
              | Some (false, s') => Some (None, s')
              | Some (true, s') =>
                  match initChildren initChild names rest s' with
                  | None => None
                  | Some (None, s'') => Some (None, s'')
                  | Some (Some js, s'') => Some (Some (j :: js), s'')
                  end
              end
          | _ => Some (None, s)
          end
      end
  end.

(** Modelled from the spec: a duplicate index assignment, the third
    failure condition of the Initializer: the name map gives one index to
    two names. *)
Definition indexAssignedTwice (names : gmap string nat) : bool :=
  negb (bool_decide (NoDup ((map_to_list names).*2))).

(** Modelled from the spec: [init] is pure virtual in the header and its
    overriding bodies are missing.  A duplicate index assignment fails the
    node at once.  Otherwise, depth-first traversal: the node marks its
    own slot as on the current path, resolves its matchers and
    initializes its children, and only after all of them succeeded
    finishes; on failure it returns [false] at once and changes nothing
    more.  [fuel] bounds the depth of the recursion; [None] means the
    bound was hit. *)
Fixpoint init (cfg : StatsdConfig) (fuel : nat) (i : nat) (s : InitState)
  : option (bool * InitState) :=
  match fuel with
  | O => None
  | S fuel' =>
      if indexAssignedTwice (conditionNameIndexMap cfg) then Some (false, s)
      else
        match allConditionConfig cfg !! i with
        | None => Some (false, s)
        | Some c =>
            let s1 := set_stack i true s in
            match resolveMatchers (logTrackerMap cfg) (directMatchers c) with
            | None => Some (false, s1)
            | Some own =>
                match initChildren (init cfg fuel') (conditionNameIndexMap cfg)
                                   (childNames c) s1 with
                | None => None
                | Some (None, s2) => Some (false, s2)
                | Some (Some js, s2) => Some (true, finishInit i own js s2)
                end
            end
        end
  end.

(** Modelled from the spec: the nodes are initialized one after the other,
    in arena order, up to the first node that fails. *)
Fixpoint initEach (cfg : StatsdConfig) (fuel : nat) (idxs : list nat) (s : InitState)
  : option (bool * InitState) :=
  match idxs with
  | [] => Some (true, s)
  | i :: rest =>
      match init cfg fuel i s with
      | None => None
      | Some (false, s') => Some (false, s')
      | Some (true, s') => initEach cfg fuel rest s'
      end
  end.

(** The number of slots of the marker array that are not marked. *)
Fixpoint unmarked (l : list bool) : nat :=
  match l with
  | [] => O
  | b :: l' => ((if b then 0 else 1) + unmarked l')%nat
  end.

Definition freshInitState (arena : list Node) : InitState :=
  mkInitState arena (replicate (length arena) false).

(** Modelled from the spec: the nodes are initialized in one batch and
    there is no partial success: when every node succeeds the batch
    yields the initialized arena, and when one node fails the batch
    reports failure and the nodes are left as they were given, not
    initialized.  The marker array is arena-sized, so a path holds at most
    [length arena] nodes and [S (length arena)] levels of recursion are
    enough (see [initConditions_returns]). *)
Definition initConditions (cfg : StatsdConfig) (arena : list Node)
  : option (bool * InitState) :=
  match initEach cfg (S (length arena)) (seq 0 (length arena))
                 (freshInitState arena) with
  | None => None
  | Some (true, s) => Some (true, s)
  | Some (false, s) => Some (false, mkInitState arena (stack s))
  end.

(** Modelled from the spec: a configuration whose initialization fails is
    rejected as a whole; only a fully initialized arena is handed on. *)
Definition loadConfiguration (cfg : StatsdConfig) : option (list Node) :=
  match initConditions cfg (buildArena cfg) with
  | Some (true, s) => Some (allConditionTrackers s)
  | _ => None
  end.

(** The dependency graph of a configuration: [i] depends on [j] when the
    descriptor of [i] names a child that the name map sends to [j]. *)
Definition edge (cfg : StatsdConfig) (i j : nat) : Prop :=
  ∃ c child, allConditionConfig cfg !! i = Some c
             ∧ child ∈ childNames c
             ∧ conditionNameIndexMap cfg !! child = Some j.

Definition acyclic (cfg : StatsdConfig) : Prop := ∀ i, ¬ tc (edge cfg) i i.

(** Node [i] reaches a cycle: some node reachable from [i] (possibly [i]
    itself) lies on a cycle. *)
Definition reachesCycle (cfg : StatsdConfig) (i : nat) : Prop :=
  ∃ k, rtc (edge cfg) i k ∧ tc (edge cfg) k k.

(** Every name a descriptor mentions resolves: children to an index of
    the arena, matchers to a matcher index. *)
Definition namesResolve (cfg : StatsdConfig) : Prop :=
  ∀ c, c ∈ allConditionConfig cfg →
    (∀ child, child ∈ childNames c →
       ∃ j, conditionNameIndexMap cfg !! child = Some j
            ∧ (j < length (allConditionConfig cfg))%nat)
    ∧ (∀ m, m ∈ directMatchers c → is_Some (logTrackerMap cfg !! m)).

(** A configuration is fully name-resolvable when every name it mentions
    resolves and names resolve to distinct nodes: no index is assigned to
    two names. *)
Definition resolvable (cfg : StatsdConfig) : Prop :=
  NoDup ((map_to_list (conditionNameIndexMap cfg)).*2) ∧ namesResolve cfg.

(** Matcher index [m] is a direct dependency of node [k]: the descriptor
    of [k] names a matcher that the matcher map sends to [m]. *)
Definition directMatcherOf (cfg : StatsdConfig) (k : nat) (m : Z) : Prop :=
  ∃ c name, allConditionConfig cfg !! k = Some c
            ∧ name ∈ directMatchers c
            ∧ logTrackerMap cfg !! name = Some m.

Definition initialized (trackers : list Node) (i : nat) : Prop :=
  ∃ n, trackers !! i = Some n ∧ mInitialized (base n) = true.

(** Node [i] reports matcher [m]: [m] is in the set its
    [getLogTrackerIndex()] returns. *)
Definition usesMatcher (trackers : list Node) (i : nat) (m : Z) : Prop :=
  ∃ n, trackers !! i = Some n ∧ m ∈ result getLogTrackerIndex (base n).

(** What holds of every state an initialization run goes through: a
    node that is initialized does not reach a cycle. *)
Definition initializedAcyclic (cfg : StatsdConfig) (s : InitState) : Prop :=
  ∀ k, initialized (allConditionTrackers s) k → ¬ reachesCycle cfg k.

(** Node [k], holding [n], is closed in [trackers]: its children are the
    resolved names of its descriptor, all of them initialized, and its
    matcher set is its own matchers joined with those of its children. *)
Definition nodeClosed (cfg : StatsdConfig) (trackers : list Node) (k : nat) (n : Node)
  : Prop :=
  ∃ c own js,
    allConditionConfig cfg !! k = Some c
    ∧ resolveMatchers (logTrackerMap cfg) (directMatchers c) = Some own
    ∧ mapM (λ child, conditionNameIndexMap cfg !! child) (childNames c) = Some js
    ∧ mChildren n = js
    ∧ mTrackerIndex (base n) = own ∪ ⋃ (usedOf trackers <$> js)
    ∧ Forall (initialized trackers) js.

Definition closed (cfg : StatsdConfig) (trackers : list Node) : Prop :=
  ∀ k n, trackers !! k = Some n → mInitialized (base n) = true →
         nodeClosed cfg trackers k n.

(** The depth of the dependency graph of the configuration below node
    [i] is less than [fuel]. *)
Fixpoint cfgDepthWithin (cfg : StatsdConfig) (fuel : nat) (i : nat) : Prop :=
  match fuel with
  | O => False
  | S fuel' =>
      ∀ c js, allConditionConfig cfg !! i = Some c →
              mapM (λ child, conditionNameIndexMap cfg !! child) (childNames c) = Some js →
              Forall (cfgDepthWithin cfg fuel') js
  end.

(** What the Initializer leaves alone of a node: name, index, state,
    sliced flag, the states per key and the descriptor. *)
Definition untouched (n : Node)
  : string * Z * ConditionState * bool
    * gmap HashableDimensionKey ConditionState * Condition :=
  (mName (base n), mIndex (base n), mNonSlicedConditionState (base n),
   mSliced (base n), mSlicedConditionState n, config n).

(** The part of a node that identifies it. *)
Definition identity (n : Node) : string * Z := (mName (base n), mIndex (base n)).


(** The first scenario of the spec: [N0] atomic, [N1 = NOT N0],
    [N2 = N1 AND N0]. *)
Definition scenario : StatsdConfig :=
  {| allConditionConfig :=
       [ mkCondition "N0" (SimpleCondition ["m0"]);
         mkCondition "N1" (CombinationCondition NOT ["N0"]);
         mkCondition "N2" (CombinationCondition AND ["N1"; "N0"]) ];
     conditionNameIndexMap := {[ "N0" := 0%nat; "N1" := 1%nat; "N2" := 2%nat ]};
     logTrackerMap := {[ "m0" := 0 ]} |}.

(** ** The Evaluator *)

#[global] Instance ConditionState_inhabited : Inhabited ConditionState :=
  populate kUnknown.

(** Modelled from the spec: the update rule of each variant is external to
    the core (the bodies of the deriving classes and of
    [condition_util.h] are missing).  An atomic node recomputes its state
    per dimension key and its non-sliced state from the event, the matcher
    verdicts and its own prior state; a combinational node applies its
    operator to the states of its children; the dimensioned query of an
    atomic node reads its state for the key the parameters give it. *)
Class ConditionRules (LogEvent : Type) : Type := {
  evaluateSimple :
    Condition → LogEvent → list MatchingState →
    gmap HashableDimensionKey ConditionState → ConditionState →
    gmap HashableDimensionKey ConditionState * ConditionState;
  evaluateCombinationCondition :
    LogicalOperation → list ConditionState → ConditionState;
  querySimple :
    Condition → gmap string HashableDimensionKey →
    gmap HashableDimensionKey ConditionState → ConditionState → ConditionState
}.

(** What one pass works on: the arena, the state cache and the array of
    change flags, both indexed like the arena. *)
Record EvalState : Type := mkEvalState {
  allConditions : list Node;
  conditionCache : list ConditionState;
  conditionChanged : list bool
}.

Definition set_conditionCache (i : nat) (c : ConditionState) (st : EvalState) : EvalState :=
  mkEvalState (allConditions st) (<[i := c]> (conditionCache st)) (conditionChanged st).

Section Evaluator.
Context {LogEvent : Type} `{ConditionRules LogEvent}.

(** Modelled from the spec: [evaluateCondition] is pure virtual in the
    header and its overriding bodies are missing.  Node [i] computes its
    new state from its declared dependencies and writes it to its own
    slot of the cache and to [mNonSlicedConditionState]; its change flag
    is set when the new state differs from the value its cache slot held
    before.  As the header documents for [conditionChanged], a condition
    that has dimensions also reports a change of any sub-condition: of
    one of its per-key states for an atomic node, of one of its children
    for a combinational node.  A cache slot outside the array reads as
    UNKNOWN and a change flag outside the array as [false]. *)
Definition evaluateCondition (i : nat) (event : LogEvent)
    (eventMatcherValues : list MatchingState) (st : EvalState) : EvalState :=
  match allConditions st !! i with
  | None => st
  | Some n =>
      let old := default kUnknown (conditionCache st !! i) in
      let '(n', new, subChanged) :=
        match c_body (config n) with
        | SimpleCondition _ =>
            let '(slices, new) :=
              evaluateSimple (config n) event eventMatcherValues
                             (mSlicedConditionState n)
                             (mNonSlicedConditionState (base n)) in
            (set_mSlicedConditionState slices
               (on_base (set_mNonSlicedConditionState new) n),
             new,
             bool_decide (slices ≠ mSlicedConditionState n))
        | CombinationCondition op _ =>
            let new :=
              evaluateCombinationCondition op
                ((λ j, conditionCache st !!! j) <$> mChildren n) in
            (on_base (set_mNonSlicedConditionState new) n,
             new,
             existsb (λ j, default false (conditionChanged st !! j)) (mChildren n))
        end in
      let changed := bool_decide (new ≠ old) || (mSliced (base n) && subChanged) in
      mkEvalState (<[i := n']> (allConditions st))
                  (<[i := new]> (conditionCache st))
                  (<[i := changed]> (conditionChanged st))
  end.

Definition evaluateEach (idxs : list nat) (event : LogEvent)
    (eventMatcherValues : list MatchingState) (st : EvalState) : EvalState :=
  foldl (λ st i, evaluateCondition i event eventMatcherValues st) st idxs.

(** Modelled from the spec: one pass per event, strictly in index order. *)
Definition evaluatePass (event : LogEvent) (eventMatcherValues : list MatchingState)
    (st : EvalState) : EvalState :=
  evaluateEach (seq 0 (length (allConditions st))) event eventMatcherValues st.

(** ** The dimensioned query *)

Fixpoint queryChildren (query : nat → EvalState → option EvalState)
    (js : list nat) (st : EvalState) : option EvalState :=
  match js with
  | [] => Some st
  | j :: rest =>
      match query j st with
      | None => None
      | Some st' => queryChildren query rest st'
      end
  end.

(** Modelled from the spec: the overload of [isConditionMet] that takes
    [conditionParameters] is pure virtual in the header and its
    overriding bodies are missing.  It evaluates the nodes below the
    queried one, down to the atomic nodes, for the given dimension keys
    and leaves each result in the node's slot of [conditionCache]; the
    answer for node [i] is read from slot [i].  [fuel] bounds the depth
    of the recursion; [None] means the bound was hit. *)
Fixpoint isConditionMet_params (fuel : nat) (i : nat)
    (conditionParameters : gmap string HashableDimensionKey) (st : EvalState)
  : option EvalState :=
  match fuel with
  | O => None
  | S fuel' =>
      match allConditions st !! i with
      | None => Some st
      | Some n =>
          match c_body (config n) with
          | SimpleCondition _ =>
              Some (set_conditionCache i
                      (querySimple (config n) conditionParameters
                                   (mSlicedConditionState n)
                                   (mNonSlicedConditionState (base n))) st)
          | CombinationCondition op _ =>
              match queryChildren
                      (λ j, isConditionMet_params fuel' j conditionParameters)
                      (mChildren n) st with
              | None => None
              | Some st' =>
                  Some (set_conditionCache i
                          (evaluateCombinationCondition op
                             ((λ j, conditionCache st' !!! j) <$> mChildren n)) st')
              end
          end
      end
  end.

(** ** Runs *)

(** What the components around the arena do with it once it is loaded. *)
Inductive Op : Type :=
  | OpEvaluate (event : LogEvent) (eventMatcherValues : list MatchingState)
  | OpSetSliced (i : nat) (sliced : bool)
  | OpQuery (i : nat) (conditionParameters : gmap string HashableDimensionKey).

Definition exec (op : Op) (st : EvalState) : EvalState :=
  match op with
  | OpEvaluate event vs => evaluatePass event vs st
  | OpSetSliced i b =>
      mkEvalState (alter (on_base (after (setSliced b))) i (allConditions st))
                  (conditionCache st) (conditionChanged st)
  | OpQuery i params =>
      default st (isConditionMet_params (S (length (allConditions st))) i params st)
  end.

Definition run (ops : list Op) (st : EvalState) : EvalState :=
  foldl (λ st op, exec op st) st ops.

(** The state in which a loaded arena starts: every cache slot UNKNOWN,
    no change flag set. *)
Definition freshEvalState (arena : list Node) : EvalState :=
  mkEvalState arena (replicate (length arena) kUnknown)
              (replicate (length arena) false).

(** The snapshots of cache and change flags after each pass of a replay. *)
Fixpoint replay (inputs : list (LogEvent * list MatchingState)) (st : EvalState)
  : list (list ConditionState * list bool) :=
  match inputs with
  | [] => []
  | (event, vs) :: rest =>
      let st' := evaluatePass event vs st in
      (conditionCache st', conditionChanged st') :: replay rest st'
  end.


(** The dimensioned query called [k] times in a row on node [i]. *)
Fixpoint queryTimes (k : nat) (fuel : nat) (i : nat)
    (params : gmap string HashableDimensionKey) (st : EvalState) : option EvalState :=
  match k with
  | O => Some st
  | S k' =>
      match isConditionMet_params fuel i params st with
      | None => None
      | Some st' => queryTimes k' fuel i params st'
      end
  end.
End Evaluator.

Arguments Op : clear implicits.

(** What no operation after construction and initialization changes of a
    node: name, index, the outcome of initialization, children and
    descriptor. *)
Definition static (n : Node)
  : string * Z * bool * gset Z * list nat * Condition :=
  (mName (base n), mIndex (base n), mInitialized (base n), mTrackerIndex (base n),
   mChildren n, config n).

(** The depth of the graph of [mChildren] below node [i] is less than [fuel]. *)
Fixpoint depthWithin (nodes : list Node) (fuel : nat) (i : nat) : Prop :=
  match fuel with
  | O => False
  | S fuel' => ∀ n, nodes !! i = Some n → Forall (depthWithin nodes fuel') (mChildren n)
  end.

(** Two states with the same arena whose caches agree on the slots in
    [D] and on the slots that belong to no node. *)
Definition agree (D : nat → Prop) (st1 st2 : EvalState) : Prop :=
  allConditions st1 = allConditions st2
  ∧ length (conditionCache st1) = length (conditionCache st2)
  ∧ ∀ k, D k ∨ (length (allConditions st1) ≤ k)%nat →
         conditionCache st1 !! k = conditionCache st2 !! k.

(** ** Example rules *)

Definition notState (c : ConditionState) : ConditionState :=
  match c with
  | kUnknown => kUnknown
  | kFalse => kTrue
  | kTrue => kFalse
  end.

Definition andState (a b : ConditionState) : ConditionState :=
  match a, b with
  | kFalse, _ | _, kFalse => kFalse
  | kTrue, kTrue => kTrue
  | _, _ => kUnknown
  end.

Definition orState (a b : ConditionState) : ConditionState :=
  match a, b with
  | kTrue, _ | _, kTrue => kTrue
  | kFalse, kFalse => kFalse
  | _, _ => kUnknown
  end.

(** Modelled from the spec: the rules of its example scenarios.  An event
    is the value of its ["uid"] dimension field.  An atomic node is "true
    when its matcher is MATCHED": it becomes TRUE, for the key of the
    event and as a whole ("true if any slice is true"), when the first
    matcher reports MATCHED, and keeps its state otherwise; the operators
    propagate UNKNOWN; a query reads the state kept for the key given for
    the node, UNKNOWN when there is none. *)
#[global] Instance exampleRules : ConditionRules Z := {
  evaluateSimple _ uid vs slices state :=
    match vs !! 0%nat with
    | Some kMatched => (<[ [("uid"%string, uid)] := kTrue ]> slices, kTrue)
    | _ => (slices, state)
    end;
  evaluateCombinationCondition op states :=
    match op with
    | AND => foldr andState kTrue states
    | OR => foldr orState kFalse states
    | NOT => match states with [c] => notState c | _ => kUnknown end
    end;
  querySimple c params slices state :=
    match params !! c_name c with
    | Some key => default kUnknown (slices !! key)
    | None => state
    end
}.


(** The arenas of the examples, as loaded. *)
Definition scenarioArena : list Node := default [] (loadConfiguration scenario).

(** ** Properties of the class as written *)

Lemma int_to_bool_lor (a b : bool) :
  int_to_bool (Z.lor (bool_to_int a) (bool_to_int b)) = a || b.
Proof. by destruct a, b. Qed.

Lemma setSliced_mSliced (b : bool) (t : ConditionTracker) :
  mSliced (after (setSliced b) t) = mSliced t || b.
Proof. unfold after, setSliced, mbind, Method_bind, get, modify; simpl. apply int_to_bool_lor. Qed.

Lemma setSliced_all_true (bs : list bool) (t : ConditionTracker) :
  mSliced t = true → mSliced (setSliced_all bs t) = true.
Proof.
  revert t. induction bs as [|b bs IH]; intros t Ht; simpl; [done|].
  apply IH. by rewrite setSliced_mSliced, Ht.
Qed.

(** C4. [setSliced b] stores the logical or of the previous flag and [b];
    hence from a state in which the flag is observed true, no sequence of
    further [setSliced] calls makes it false. *)
Theorem setSliced_monotonic_or (t : ConditionTracker) (b : bool) (bs : list bool) :
  mSliced (after (setSliced b) t) = mSliced t || b
  ∧ (mSliced t = true → mSliced (setSliced_all bs t) = true).
Proof. split; [apply setSliced_mSliced | apply setSliced_all_true]. Qed.

Lemma setSliced_monotonic_or_witness :
  let t := after (setSliced true) (new_ConditionTracker "screen_on" 3) in
  mSliced t = true ∧ mSliced (setSliced_all [false; true; false] t) = true.
Proof.
  split; [reflexivity|].
  apply (setSliced_monotonic_or
           (after (setSliced true) (new_ConditionTracker "screen_on" 3))
           false [false; true; false]).
  reflexivity.
Defined.

(** C7. [isConditionMet()] returns the current [mNonSlicedConditionState]
    and leaves the tracker as it was, so a second call returns the same
    value as the first. *)
Theorem isConditionMet_pure_read (t : ConditionTracker) :
  result isConditionMet t = mNonSlicedConditionState t
  ∧ after isConditionMet t = t
  ∧ result (isConditionMet ≫= λ _, isConditionMet) t = result isConditionMet t.
Proof. done. Qed.

(** C8. A freshly constructed tracker has state UNKNOWN, is not
    initialized, is not sliced and uses no matcher; [isConditionMet()] on
    it returns UNKNOWN. *)
Theorem new_ConditionTracker_initial (name : string) (index : Z) :
  let t := new_ConditionTracker name index in
  mNonSlicedConditionState t = kUnknown
  ∧ mInitialized t = false
  ∧ mSliced t = false
  ∧ mTrackerIndex t = ∅
  ∧ result isConditionMet t = kUnknown.
Proof. done. Qed.

(** C10. [getLogTrackerIndex()] is total: on any tracker, initialized or
    not, it returns [mTrackerIndex] and leaves the tracker unchanged; on a
    freshly constructed tracker the set is empty. *)
Theorem getLogTrackerIndex_total_pure (t : ConditionTracker) (name : string) (index : Z) :
  result getLogTrackerIndex t = mTrackerIndex t
  ∧ after getLogTrackerIndex t = t
  ∧ result getLogTrackerIndex (new_ConditionTracker name index) = ∅.
Proof. done. Qed.

(** ** Properties of the Initializer *)

Section Initializer.
Variable cfg : StatsdConfig.

Local Open Scope nat_scope.

Local Abbreviation names := (conditionNameIndexMap cfg).

(** An invariant [P] that every successful child call re-establishes
    carries through the loop over the children; [F] is what also a
    failing call leaves true, and [Q j] what a successful call on [j]
    establishes and later calls keep. *)
Lemma initChildren_inv (P F : InitState → Prop) (Q : nat → InitState → Prop)
    (initChild : nat → InitState → option (bool * InitState)) :
  (∀ s, P s → F s) →
  (∀ j s r s', P s → stack s !! j = Some false → initChild j s = Some (r, s') →
     F s' ∧ (r = true → P s' ∧ Q j s' ∧ ∀ k, Q k s → Q k s')) →
  ∀ children s r s2,
    P s → initChildren initChild names children s = Some (r, s2) →
    F s2 ∧ ∀ js, r = Some js →
             P s2 ∧ mapM (λ child, names !! child) children = Some js
             ∧ Forall (λ j, Q j s2) js ∧ ∀ k, Q k s → Q k s2.
Proof.
  intros HPF Hrec children.
  induction children as [|child rest IH]; intros s r s2 HP Hrun; simpl in Hrun.
  - simplify_eq. split; [by apply HPF|]. intros js ?; simplify_eq. by repeat split.
  - destruct (names !! child) as [j|] eqn:Hj; simpl; last first.
    { simplify_eq. split; [by apply HPF|]. by intros. }
    destruct (stack s !! j) as [[]|] eqn:Hmark;
      try (simplify_eq; split; [by apply HPF|]; by intros).
    destruct (initChild j s) as [[[] s']|] eqn:Hcall; try done; last first.
    { simplify_eq. destruct (Hrec _ _ _ _ HP Hmark Hcall) as [HF _]. by split. }
    destruct (Hrec _ _ _ _ HP Hmark Hcall) as [_ Hok].
    destruct Hok as (HP' & HQ & Hkeep); [done|].
    destruct (initChildren initChild names rest s') as [[[js'|] s'']|] eqn:Hrest;
      try done; simplify_eq.
    + destruct (IH _ _ _ HP' Hrest) as [HF Hjs].
      destruct (Hjs js' eq_refl) as (HP2 & Hmap & HQs & Hkeep2).
      split; [done|]. intros js ?; simplify_eq.
      split; [done|]. split; [simpl; rewrite Hj; simpl; by rewrite Hmap|].
      split; [constructor; auto|auto].
    + destruct (IH _ _ _ HP' Hrest) as [HF _]. by split.
Qed.

(** What a successful [init] went through. *)
Lemma init_true_inv fuel i s s' :
  init cfg fuel i s = Some (true, s') →
  ∃ fuel' c own js s2,
    fuel = S fuel'
    ∧ allConditionConfig cfg !! i = Some c
    ∧ resolveMatchers (logTrackerMap cfg) (directMatchers c) = Some own
    ∧ initChildren (init cfg fuel') names (childNames c) (set_stack i true s)
      = Some (Some js, s2)
    ∧ s' = finishInit i own js s2.
Proof.
  destruct fuel as [|fuel']; simpl; [done|].
  destruct (indexAssignedTwice names); [done|].
  destruct (allConditionConfig cfg !! i) as [c|]; [|done].
  destruct (resolveMatchers _ _) as [own|] eqn:Hown; [|done].
  destruct (initChildren _ _ _ _) as [[[js|] s2]|] eqn:Hch; try done.
  intros ?; simplify_eq. by exists fuel', c, own, js, s2.
Qed.

(** A successful [init] of a node leaves the marker array as it found
    it, with the node's own slot cleared. *)
Lemma init_stack fuel : ∀ i s s',
  init cfg fuel i s = Some (true, s') → stack s' = <[i := false]> (stack s).
Proof.
  induction fuel as [|fuel IH]; intros i s s' Hinit; [done|].
  apply init_true_inv in Hinit as (f & c & own & js & s2 & ? & Hc & Hown & Hch & ->).
  simplify_eq.
  pose (st0 := <[i := true]> (stack s)).
  destruct (initChildren_inv (λ s, stack s = st0) (λ _, True) (λ _ _, True)
              (init cfg f)) with (children := childNames c)
              (s := set_stack i true s) (r := Some js) (s2 := s2)
    as [_ Hok]; try done.
  - intros j t r t' Ht Hmark Hcall. split; [done|]. intros ->.
    split; [|done]. rewrite (IH _ _ _ Hcall), Ht.
    apply list_insert_id. by rewrite <- Ht.
  - destruct (Hok js eq_refl) as (Hst & _). simpl. rewrite Hst. unfold st0.
    apply list_insert_insert_eq.
Qed.

Lemma init_stack_unmarked fuel i s s' :
  stack s !! i = Some false → init cfg fuel i s = Some (true, s') → stack s' = stack s.
Proof. intros Hi Hinit. rewrite (init_stack _ _ _ _ Hinit). by apply list_insert_id. Qed.

Lemma unmarked_mark l i :
  l !! i = Some false → S (unmarked (<[i := true]> l)) = unmarked l.
Proof.
  revert i. induction l as [|b l IH]; intros [|i] Hi; simplify_eq/=; [done|].
  rewrite <- (IH i Hi). lia.
Qed.

Lemma initChildren_returns (initChild : nat → InitState → option (bool * InitState)) st0 :
  (∀ j s, stack s = st0 → st0 !! j = Some false → is_Some (initChild j s)) →
  (∀ j s s', stack s = st0 → st0 !! j = Some false →
             initChild j s = Some (true, s') → stack s' = st0) →
  ∀ children s, stack s = st0 → is_Some (initChildren initChild names children s).
Proof.
  intros Hret Hkeep children.
  induction children as [|child rest IH]; intros s Hs; simpl; [done|].
  destruct (names !! child) as [j|]; [|done].
  destruct (stack s !! j) as [[]|] eqn:Hmark; try done.
  rewrite Hs in Hmark.
  destruct (Hret j s Hs Hmark) as [[[] s'] Hcall]; rewrite Hcall; [|done].
  destruct (IH s' (Hkeep _ _ _ Hs Hmark Hcall)) as [[[js|] s''] ->]; done.
Qed.

(** [init] returns whenever its budget exceeds the number of unmarked
    slots. *)
Lemma init_returns fuel : ∀ i s,
  stack s !! i = Some false → unmarked (stack s) < fuel →
  is_Some (init cfg fuel i s).
Proof.
  induction fuel as [|fuel IH]; intros i s Hi Hlt; [lia|]. simpl.
  destruct (indexAssignedTwice names); [done|].
  destruct (allConditionConfig cfg !! i) as [c|]; [|done].
  destruct (resolveMatchers _ _) as [own|]; [|done].
  pose proof (unmarked_mark _ _ Hi) as Hmark.
  destruct (initChildren_returns (init cfg fuel) (<[i := true]> (stack s)))
    with (children := childNames c) (s := set_stack i true s)
    as [[[js|] s2] ->]; try done.
  - intros j t Ht Hj. apply IH; rewrite Ht; [done|lia].
  - intros j t t' Ht Hj Hcall. rewrite <- Ht. eapply init_stack_unmarked; [|done].
    by rewrite Ht.
Qed.

Lemma unmarked_replicate n : unmarked (replicate n false) = n.
Proof. induction n as [|n IH]; simpl; [done|]. by rewrite IH. Qed.

Lemma initEach_returns fuel idxs : ∀ s,
  (∀ i, i ∈ idxs → stack s !! i = Some false) → unmarked (stack s) < fuel →
  is_Some (initEach cfg fuel idxs s).
Proof.
  induction idxs as [|i rest IH]; intros s Hall Hlt; simpl; [done|].
  destruct (init_returns fuel i s) as [[[] s'] Hcall]; [set_solver|done| |];
    rewrite Hcall; [|done].
  assert (stack s' = stack s) as Hst
    by (eapply init_stack_unmarked; [|done]; set_solver).
  apply IH; rewrite Hst; [set_solver|done].
Qed.

(** The batch always returns: the recursion budget it starts with is
    never exhausted. *)
Lemma initConditions_returns arena : is_Some (initConditions cfg arena).
Proof.
  unfold initConditions.
  destruct (initEach_returns (S (length arena)) (seq 0 (length arena))
              (freshInitState arena)) as [[[] s] ->]; simpl; [| |done|done].
  - intros i Hi. apply lookup_replicate. split; [done|].
    apply elem_of_seq in Hi. lia.
  - rewrite unmarked_replicate. lia.
Qed.

(** A batch that succeeds yields what the run over the nodes left. *)
Lemma initConditions_true arena s :
  initConditions cfg arena = Some (true, s) →
  initEach cfg (S (length arena)) (seq 0 (length arena)) (freshInitState arena)
  = Some (true, s).
Proof.
  unfold initConditions.
  destruct (initEach _ _ _ _) as [[[] t]|]; [|done|done]. by intros; simplify_eq.
Qed.

(** A batch that fails leaves the arena it was given. *)
Lemma initConditions_false arena s :
  initConditions cfg arena = Some (false, s) → allConditionTrackers s = arena.
Proof.
  unfold initConditions.
  destruct (initEach _ _ _ _) as [[[] t]|]; [done| |done]. by intros; simplify_eq.
Qed.

Lemma init_inv fuel i s r s' :
  init cfg fuel i s = Some (r, s') →
  ∃ fuel', fuel = S fuel' ∧
    ((indexAssignedTwice names = true ∧ r = false ∧ s' = s)
     ∨ (indexAssignedTwice names = false ∧
        match allConditionConfig cfg !! i with
        | None => r = false ∧ s' = s
        | Some c =>
            match resolveMatchers (logTrackerMap cfg) (directMatchers c) with
            | None => r = false ∧ s' = set_stack i true s
            | Some own =>
                ∃ r' s2,
                  initChildren (init cfg fuel') names (childNames c)
                               (set_stack i true s)
                  = Some (r', s2)
                  ∧ match r' with
                    | None => r = false ∧ s' = s2
                    | Some js => r = true ∧ s' = finishInit i own js s2
                    end
            end
        end)).
Proof.
  destruct fuel as [|fuel']; simpl; [done|]. intros Hinit. exists fuel'.
  split; [done|].
  destruct (indexAssignedTwice names); [left; by simplify_eq|right; split; [done|]].
  destruct (allConditionConfig cfg !! i) as [c|]; [|by simplify_eq].
  destruct (resolveMatchers _ _) as [own|]; [|by simplify_eq].
  destruct (initChildren _ _ _ _) as [[[js|] s2]|]; [| |done]; simplify_eq.
  - by exists (Some js), s2.
  - by exists None, s'.
Qed.

Lemma mapM_resolved (l : list string) (js : list nat) child j :
  mapM (λ c, names !! c) l = Some js → child ∈ l → names !! child = Some j → j ∈ js.
Proof.
  intros Hmap%mapM_Some_1 Hin Hj.
  induction Hmap as [|x y l k Hx _ IH]; [by apply elem_of_nil in Hin|].
  apply elem_of_cons in Hin as [->|Hin].
  - simplify_eq. by left.
  - right. by apply IH.
Qed.

Lemma edge_child i j c js :
  allConditionConfig cfg !! i = Some c →
  mapM (λ child, names !! child) (childNames c) = Some js →
  edge cfg i j → j ∈ js.
Proof.
  intros Hc Hmap (c' & child & Hc' & Hin & Hj). simplify_eq.
  by eapply mapM_resolved.
Qed.

(** When [init] of [i] succeeds, no node that [i] depends on, directly or
    not, was marked when the call began, and none of them is [i]. *)
Lemma init_reach_unmarked fuel : ∀ i s s',
  init cfg fuel i s = Some (true, s') →
  ∀ k, tc (edge cfg) i k → <[i := true]> (stack s) !! k = Some false.
Proof.
  induction fuel as [|fuel IH]; intros i s s' Hinit; [done|].
  apply init_true_inv in Hinit as (f & c & own & js & s2 & ? & Hc & Hown & Hch & ->).
  simplify_eq.
  pose (st0 := <[i := true]> (stack s)).
  destruct (initChildren_inv (λ s, stack s = st0) (λ _, True)
              (λ j _, st0 !! j = Some false
                      ∧ ∀ k, tc (edge cfg) j k → st0 !! k = Some false)
              (init cfg f)) with (children := childNames c)
              (s := set_stack i true s) (r := Some js) (s2 := s2)
    as [_ Hok]; try done.
  - intros j t r t' Ht Hmark Hcall. split; [done|]. intros ->.
    rewrite Ht in Hmark. split; [|split; [|done]].
    + rewrite <- Ht. eapply init_stack_unmarked; [|done]. by rewrite Ht.
    + split; [done|]. intros k Hk.
      specialize (IH _ _ _ Hcall k Hk). rewrite Ht in IH.
      apply list_lookup_insert_Some in IH as [(_ & ? & _)|[_ ?]]; done.
  - destruct (Hok js eq_refl) as (_ & Hmap & HQ & _).
    rewrite Forall_forall in HQ.
    intros k Hk. inversion Hk as [? ? Hedge|? j ? Hedge Hrest]; simplify_eq.
    + by destruct (HQ k (edge_child i k c js Hc Hmap Hedge)).
    + destruct (HQ j (edge_child i j c js Hc Hmap Hedge)) as [_ Hj]. by apply Hj.
Qed.

(** When [init] of [i] succeeds, [i] does not reach a cycle. *)
Lemma init_no_cycle fuel : ∀ i s s',
  init cfg fuel i s = Some (true, s') → ¬ reachesCycle cfg i.
Proof.
  induction fuel as [|fuel IH]; intros i s s' Hinit; [done|].
  pose proof (init_reach_unmarked _ _ _ _ Hinit) as Hclear.
  apply init_true_inv in Hinit as (f & c & own & js & s2 & ? & Hc & Hown & Hch & ->).
  simplify_eq.
  destruct (initChildren_inv (λ _, True) (λ _, True)
              (λ j _, ¬ reachesCycle cfg j) (init cfg f))
    with (children := childNames c)
         (s := set_stack i true s) (r := Some js) (s2 := s2)
    as [_ Hok]; try done.
  - intros j t r t' _ _ Hcall. split; [done|]. intros ->. eauto.
  - destruct (Hok js eq_refl) as (_ & Hmap & HQ & _).
    rewrite Forall_forall in HQ.
    intros (k & Hik & Hkk).
    apply rtc_inv in Hik as [->|(j & Hij & Hjk)].
    + specialize (Hclear k Hkk).
      apply list_lookup_insert_Some in Hclear as [(_ & ? & _)|[? _]]; done.
    + apply (HQ j); [by apply (edge_child i j c js)|]. by exists k.
Qed.

Lemma init_initializedAcyclic fuel : ∀ i s r s',
  init cfg fuel i s = Some (r, s') → initializedAcyclic cfg s → initializedAcyclic cfg s'.
Proof.
  induction fuel as [|fuel IH]; intros i s r s' Hinit Hs; [done|].
  pose proof Hinit as Hinv.
  apply init_inv in Hinv as (f & ? & [(_ & ? & ?)|[_ Hinv]]); simplify_eq; [done|].
  destruct (allConditionConfig cfg !! i) as [c|]; [|by destruct Hinv; simplify_eq].
  destruct (resolveMatchers _ _) as [own|]; [|by destruct Hinv; simplify_eq].
  destruct Hinv as (r' & s2 & Hch & Hr).
  destruct (initChildren_inv (initializedAcyclic cfg) (initializedAcyclic cfg) (λ _ _, True)
              (init cfg f)) with (children := childNames c)
              (s := set_stack i true s) (r := r') (s2 := s2)
    as [Hs2 _]; try done.
  - intros j t r0 t' Ht _ Hcall. split; [by eapply IH|]. intros _.
    split; [by eapply IH|done].
  - destruct r' as [js|]; destruct Hr as [-> ->]; [|done].
    intros k (n & Hk & Hn). simpl in Hk.
    destruct (decide (k = i)) as [->|Hne].
    + by eapply init_no_cycle.
    + rewrite list_lookup_alter_ne in Hk by done. apply Hs2. by exists n.
Qed.

Lemma initEach_initializedAcyclic fuel idxs : ∀ s r s',
  initEach cfg fuel idxs s = Some (r, s') →
  initializedAcyclic cfg s → initializedAcyclic cfg s'.
Proof.
  induction idxs as [|i rest IH]; intros s r s' Hrun Hs; simpl in Hrun.
  - by simplify_eq.
  - destruct (init cfg fuel i s) as [[[] t]|] eqn:Hcall; [| |done].
    + eapply IH; [done|]. by eapply init_initializedAcyclic.
    + simplify_eq. by eapply init_initializedAcyclic.
Qed.


Lemma buildArena_lookup i :
  buildArena cfg !! i
  = (λ c, mkNode (new_ConditionTracker (c_name c) (Z.of_nat i)) c [] ∅)
      <$> allConditionConfig cfg !! i.
Proof. apply list_lookup_imap. Qed.

Lemma buildArena_length : length (buildArena cfg) = length (allConditionConfig cfg).
Proof. apply length_imap. Qed.

Lemma buildArena_not_initialized k : ¬ initialized (buildArena cfg) k.
Proof.
  intros (n & Hk & Hn). rewrite buildArena_lookup in Hk.
  destruct (allConditionConfig cfg !! k); by simplify_eq/=.
Qed.


(** *** Acyclic, resolvable configurations *)

Lemma initChildren_succeeds (initChild : nat → InitState → option (bool * InitState))
    st0 children :
  (∀ child, child ∈ children →
     ∃ j, names !! child = Some j ∧ st0 !! j = Some false
          ∧ ∀ s r s', stack s = st0 → initChild j s = Some (r, s') →
                      r = true ∧ stack s' = st0) →
  ∀ s r s2, stack s = st0 →
    initChildren initChild names children s = Some (r, s2) → is_Some r.
Proof.
  induction children as [|child rest IH]; intros Hall s r s2 Hs Hrun; simpl in Hrun.
  - by simplify_eq.
  - destruct (Hall child) as (j & Hj & Hmark & Hcall); [by left|].
    rewrite Hj, Hs, Hmark in Hrun.
    destruct (initChild j s) as [[b s']|] eqn:Hb; [|done].
    destruct (Hcall _ _ _ Hs Hb) as [-> Hs'].
    destruct (initChildren initChild names rest s') as [[[js|] s'']|] eqn:Hrest;
      [by simplify_eq| |done].
    destruct (IH (λ c Hc, Hall c (list_elem_of_further _ _ _ Hc)) _ _ _ Hs' Hrest);
      done.
Qed.

Lemma resolvable_matchers c :
  namesResolve cfg → c ∈ allConditionConfig cfg →
  is_Some (resolveMatchers (logTrackerMap cfg) (directMatchers c)).
Proof.
  intros Hres Hc. destruct (Hres c Hc) as [_ Hm]. unfold resolveMatchers.
  destruct (mapM _ _) as [l|] eqn:Hmap; [done|]. exfalso.
  apply mapM_None_1, Exists_exists in Hmap as (m & Hin & Hnone).
  destruct (Hm m Hin) as [? ?]. congruence.
Qed.

(** In an acyclic, resolvable configuration [init] cannot fail when no
    node that [i] reaches is marked. *)
Lemma init_acyclic_true fuel :
  acyclic cfg → resolvable cfg →
  ∀ i s r s',
    is_Some (allConditionConfig cfg !! i) →
    (∀ k, rtc (edge cfg) i k → stack s !! k = Some false) →
    init cfg fuel i s = Some (r, s') → r = true.
Proof.
  intros Hacyc Hres.
  induction fuel as [|fuel IH]; intros i s r s' [c Hc] Hclear Hinit; [done|].
  pose proof (Hclear i (rtc_refl _ _)) as Hi.
  apply init_inv in Hinit as (f & ? & [(Hdup & _)|[_ Hinv]]); simplify_eq.
  { destruct Hres as [Hnodup _]. unfold indexAssignedTwice in Hdup.
    by rewrite bool_decide_eq_true_2 in Hdup. }
  destruct Hres as [_ Hres]. rewrite Hc in Hinv.
  assert (c ∈ allConditionConfig cfg) as Hin by (by eapply list_elem_of_lookup_2).
  destruct (resolvable_matchers c Hres Hin) as [own Hown]. rewrite Hown in Hinv.
  destruct Hinv as (r' & s2 & Hch & Hr).
  destruct (initChildren_succeeds (init cfg f) (<[i := true]> (stack s))
              (childNames c)) with (s := set_stack i true s) (r := r') (s2 := s2)
    as [js ->]; [|done|done|by destruct Hr].
  intros child Hchild.
  destruct (Hres c Hin) as [Hch' _]. destruct (Hch' child Hchild) as (j & Hj & Hlt).
  assert (edge cfg i j) as Hedge by (by exists c, child).
  assert (∀ k, rtc (edge cfg) j k → <[i := true]> (stack s) !! k = Some false)
    as Hbelow.
  { intros k Hjk. rewrite list_lookup_insert_ne.
    - apply Hclear. by eapply rtc_l.
    - intros ->. apply (Hacyc k). by eapply tc_rtc_r; [apply tc_once|]. }
  exists j. split; [done|]. split; [apply Hbelow, rtc_refl|].
  intros t r0 t' Ht Hcall.
  assert (r0 = true) as ->.
  { eapply IH; [by apply lookup_lt_is_Some| |done]. by rewrite Ht. }
  split; [done|]. rewrite <- Ht. eapply init_stack_unmarked; [|done].
  rewrite Ht. apply Hbelow, rtc_refl.
Qed.

(** *** The matcher sets after a successful initialization *)

Lemma initialized_ext (t t' : list Node) k :
  t' !! k = t !! k → initialized t k → initialized t' k.
Proof. intros Heq (n & Hk & Hn). exists n. by rewrite Heq. Qed.

Lemma usedOf_ext (t t' : list Node) (js : list nat) :
  (∀ j, j ∈ js → t' !! j = t !! j) →
  ⋃ (usedOf t' <$> js) = ⋃ (usedOf t <$> js).
Proof.
  intros Heq. f_equal. apply list_fmap_ext. intros ? j Hj%list_elem_of_lookup_2.
  unfold usedOf. by rewrite Heq.
Qed.

Lemma nodeClosed_ext (t t' : list Node) k n :
  (∀ j, j ∈ mChildren n → t' !! j = t !! j) →
  nodeClosed cfg t k n → nodeClosed cfg t' k n.
Proof.
  intros Heq (c & own & js & Hc & Hown & Hmap & Hch & Hused & Hinit).
  rewrite Hch in Heq. exists c, own, js. repeat split; try done.
  - by rewrite (usedOf_ext t t').
  - rewrite Forall_forall in Hinit |- *. intros j Hj.
    eapply initialized_ext; [by apply Heq|by apply Hinit].
Qed.

Lemma list_alter_same {A} (f : A → A) (l : list A) i x :
  l !! i = Some x → f x = x → alter f i l = l.
Proof.
  intros Hi Hx. apply list_eq. intros j. destruct (decide (i = j)) as [->|Hne].
  - by rewrite list_lookup_alter_eq, Hi; simpl; rewrite Hx.
  - by rewrite list_lookup_alter_ne.
Qed.

(** The effect of a successful [init] of an unmarked node on an arena
    that is closed: the arena stays closed, the node ends initialized,
    and neither the nodes that were initialized nor the marked ones
    change. *)
Lemma init_closed fuel : ∀ i s s',
  init cfg fuel i s = Some (true, s') →
  stack s !! i = Some false →
  length (allConditionTrackers s) = length (allConditionConfig cfg) →
  closed cfg (allConditionTrackers s) →
  closed cfg (allConditionTrackers s')
  ∧ length (allConditionTrackers s') = length (allConditionConfig cfg)
  ∧ initialized (allConditionTrackers s') i
  ∧ (∀ k, initialized (allConditionTrackers s) k →
          allConditionTrackers s' !! k = allConditionTrackers s !! k)
  ∧ (∀ k, stack s !! k = Some true →
          allConditionTrackers s' !! k = allConditionTrackers s !! k).
Proof.
  induction fuel as [|fuel IH]; intros i s s' Hinit Hi Hlen Hclosed; [done|].
  apply init_true_inv in Hinit as (f & c & own & js & s2 & ? & Hc & Hown & Hch & ->).
  simplify_eq.
  pose (st0 := <[i := true]> (stack s)).
  pose (t0 := allConditionTrackers s).
  assert (st0 !! i = Some true) as Hi0.
  { apply list_lookup_insert_eq. by eapply lookup_lt_Some. }
  destruct (initChildren_inv
              (λ t, stack t = st0
                    ∧ closed cfg (allConditionTrackers t)
                    ∧ length (allConditionTrackers t) = length (allConditionConfig cfg)
                    ∧ (∀ k, initialized t0 k → allConditionTrackers t !! k = t0 !! k)
                    ∧ (∀ k, st0 !! k = Some true → allConditionTrackers t !! k = t0 !! k))
              (λ _, True)
              (λ j t, st0 !! j = Some false ∧ initialized (allConditionTrackers t) j)
              (init cfg f)) with (children := childNames c)
              (s := set_stack i true s) (r := Some js) (s2 := s2)
    as [_ Hok]; try done.
  - intros j t r t' (Ht & Hcl & Hl & Hkeep & Hmarked) Hmark Hcall.
    split; [done|]. intros ->.
    destruct (IH _ _ _ Hcall Hmark Hl Hcl) as (Hcl' & Hl' & Hj' & Hkeep' & Hmarked').
    rewrite Ht in Hmark.
    refine (conj (conj _ (conj Hcl' (conj Hl' (conj _ _)))) (conj (conj Hmark Hj') _)).
    + rewrite <- Ht. eapply init_stack_unmarked; [|done]. by rewrite Ht.
    + intros k Hk. rewrite <- (Hkeep k Hk). apply Hkeep'.
      eapply initialized_ext; [by apply Hkeep|done].
    + intros k Hk. rewrite <- (Hmarked k Hk). apply Hmarked'. by rewrite Ht.
    + intros k [? Hk]. split; [done|].
      eapply initialized_ext; [by apply Hkeep'|done].
  - destruct (Hok js eq_refl) as ((Hst & Hcl & Hl & Hkeep & Hmarked) & Hmap & HQ & _).
    rewrite Forall_forall in HQ.
    assert (∀ j, j ∈ js → j ≠ i) as Hne by (intros j [? _]%HQ ->; congruence).
    destruct (lookup_lt_is_Some_2 t0 i) as [ni Hni].
    { unfold t0. rewrite Hlen. by eapply lookup_lt_Some. }
    pose proof (Hmarked i Hi0) as Hi2. rewrite Hni in Hi2.
    assert (∀ k, stack s !! k = Some true →
                 allConditionTrackers s2 !! k = t0 !! k) as Hmarked2.
    { intros k Hk. apply Hmarked. unfold st0.
      rewrite list_lookup_insert_ne; [done|]. intros ->. congruence. }
    destruct (mInitialized (base ni)) eqn:Hinit.
    + (* the node was initialized before: nothing changes *)
      destruct (Hclosed i ni Hni Hinit)
        as (c' & own' & js' & ? & ? & ? & Hch' & Hused & Hall).
      simplify_eq. rewrite Forall_forall in Hall.
      assert (allConditionTrackers (finishInit i own (mChildren ni) s2)
              = allConditionTrackers s2) as Heq.
      { simpl. eapply list_alter_same; [done|].
        rewrite (usedOf_ext t0) by (intros j Hj; by apply Hkeep, Hall).
        fold t0 in Hused. rewrite <- Hused.
        destruct ni as [[] ? ? ?]; simpl in *. by subst. }
      rewrite Heq. repeat split; try done.
      by exists ni.
    + (* the node is initialized now *)
      assert (¬ initialized (allConditionTrackers s2) i) as Hnot.
      { intros (n & Hn & Hn'). rewrite Hi2 in Hn. simplify_eq. congruence. }
      simpl. repeat split.
      * intros k n' Hk Hn'. destruct (decide (k = i)) as [->|Hki].
        -- rewrite list_lookup_alter_eq, Hi2 in Hk. simplify_eq/=.
           exists c, own, js. repeat split; try done.
           ++ simpl. f_equal. symmetry. apply usedOf_ext.
              intros j Hj. rewrite list_lookup_alter_ne; [done|].
              intros ->. by apply (Hne j).
           ++ apply Forall_forall. intros j Hj.
              eapply initialized_ext; [|by apply HQ].
              rewrite list_lookup_alter_ne; [done|]. intros ->. by apply (Hne j).
        -- rewrite list_lookup_alter_ne in Hk by done.
           eapply nodeClosed_ext; [|by apply Hcl].
           intros j Hj. rewrite list_lookup_alter_ne; [done|]. intros ->.
           destruct (Hcl k n' Hk Hn') as (? & ? & ? & _ & _ & _ & Hch' & _ & Hall).
           rewrite Forall_forall in Hall. apply Hnot, Hall. by rewrite <- Hch'.
      * by rewrite length_alter.
      * eexists. rewrite list_lookup_alter_eq, Hi2. by split.
      * intros k Hk. rewrite list_lookup_alter_ne; [by apply Hkeep|].
        intros ->. destruct Hk as (n & Hn & Hn'). fold t0 in Hn. congruence.
      * intros k Hk. rewrite list_lookup_alter_ne; [by apply Hmarked2|].
        intros ->. congruence.
Qed.

Lemma initEach_closed fuel idxs : ∀ s s',
  initEach cfg fuel idxs s = Some (true, s') →
  (∀ i, i ∈ idxs → stack s !! i = Some false) →
  length (allConditionTrackers s) = length (allConditionConfig cfg) →
  closed cfg (allConditionTrackers s) →
  closed cfg (allConditionTrackers s')
  ∧ (∀ i, i ∈ idxs → initialized (allConditionTrackers s') i)
  ∧ (∀ k, initialized (allConditionTrackers s) k →
          allConditionTrackers s' !! k = allConditionTrackers s !! k).
Proof.
  induction idxs as [|i rest IH]; intros s s' Hrun Hall Hlen Hcl; simpl in Hrun.
  - simplify_eq. split; [done|]. split; [|done]. by intros i ?%elem_of_nil.
  - destruct (init cfg fuel i s) as [[[] t]|] eqn:Hcall; [|done|done].
    assert (stack s !! i = Some false) as Hi by (apply Hall; by left).
    destruct (init_closed _ _ _ _ Hcall Hi Hlen Hcl) as (Hcl' & Hl' & Hi' & Hkeep & _).
    destruct (IH _ _ Hrun) as (Hcl2 & Hall2 & Hkeep2); [|done|done|].
    { intros k Hk. rewrite (init_stack_unmarked _ _ _ _ Hi Hcall).
      apply Hall. by right. }
    split; [done|]. split.
    + intros k [->|Hk]%elem_of_cons; [|by apply Hall2].
      eapply initialized_ext; [by apply Hkeep2|done].
    + intros k Hk. rewrite <- (Hkeep k Hk). apply Hkeep2.
      eapply initialized_ext; [by apply Hkeep|done].
Qed.

Lemma reach_in_range i k :
  namesResolve cfg → i < length (allConditionConfig cfg) →
  rtc (edge cfg) i k → k < length (allConditionConfig cfg).
Proof.
  intros Hres Hi Hik. induction Hik as [|x y z (c & child & Hc & Hin & Hy) _ IH];
    [done|].
  apply IH. apply list_elem_of_lookup_2 in Hc.
  destruct (Hres c Hc) as [Hch _]. destruct (Hch child Hin) as (j & Hj & Hlt).
  by simplify_eq.
Qed.

Lemma initEach_acyclic_true fuel idxs :
  acyclic cfg → resolvable cfg →
  ∀ s r s',
    (∀ i, i ∈ idxs → i < length (allConditionConfig cfg)) →
    stack s = replicate (length (allConditionConfig cfg)) false →
    initEach cfg fuel idxs s = Some (r, s') → r = true.
Proof.
  intros Hacyc Hres. induction idxs as [|i rest IH];
    intros s r s' Hidx Hst Hrun; simpl in Hrun; [by simplify_eq|].
  assert (i < length (allConditionConfig cfg)) as Hi by (apply Hidx; by left).
  assert (∀ k, rtc (edge cfg) i k → stack s !! k = Some false) as Hclear.
  { intros k Hk. rewrite Hst. apply lookup_replicate. split; [done|].
    destruct Hres as [_ Hnames]. by eapply reach_in_range. }
  destruct (init cfg fuel i s) as [[b t]|] eqn:Hcall; [|done].
  assert (b = true) as ->.
  { eapply init_acyclic_true; [done|done| |done|done]. by apply lookup_lt_is_Some. }
  eapply IH; [|
    by rewrite (init_stack_unmarked _ _ _ _ (Hclear i (rtc_refl _ _)) Hcall)|done].
  intros k Hk. apply Hidx. by right.
Qed.

Lemma buildArena_closed : closed cfg (buildArena cfg).
Proof. intros k n Hk Hn. destruct (buildArena_not_initialized k). by exists n. Qed.

(** *** Names, indices and depth *)

Lemma init_untouched fuel : ∀ i s r s',
  init cfg fuel i s = Some (r, s') →
  untouched <$> allConditionTrackers s' = untouched <$> allConditionTrackers s.
Proof.
  induction fuel as [|fuel IH]; intros i s r s' Hinit; [done|].
  apply init_inv in Hinit as (f & ? & [(_ & ? & ?)|[_ Hinv]]); simplify_eq; [done|].
  destruct (allConditionConfig cfg !! i) as [c|]; [|by destruct Hinv; simplify_eq].
  destruct (resolveMatchers _ _) as [own|]; [|by destruct Hinv; simplify_eq].
  destruct Hinv as (r' & s2 & Hch & Hr).
  pose (ids := untouched <$> allConditionTrackers s).
  destruct (initChildren_inv (λ t, untouched <$> allConditionTrackers t = ids)
              (λ t, untouched <$> allConditionTrackers t = ids) (λ _ _, True)
              (init cfg f)) with (children := childNames c)
              (s := set_stack i true s) (r := r') (s2 := s2)
    as [Hs2 _]; try done.
  - intros j t r0 t' Ht _ Hcall. rewrite (IH _ _ _ _ Hcall). by repeat split.
  - destruct r' as [js|]; destruct Hr as [-> ->]; [|done]. simpl.
    transitivity (untouched <$> allConditionTrackers s2); [|exact Hs2].
    apply list_eq. intros k. rewrite !list_lookup_fmap.
    destruct (decide (i = k)) as [->|Hne].
    + rewrite list_lookup_alter_eq. by destruct (allConditionTrackers s2 !! k).
    + by rewrite list_lookup_alter_ne.
Qed.

Lemma initEach_untouched fuel idxs : ∀ s r s',
  initEach cfg fuel idxs s = Some (r, s') →
  untouched <$> allConditionTrackers s' = untouched <$> allConditionTrackers s.
Proof.
  induction idxs as [|i rest IH]; intros s r s' Hrun; simpl in Hrun.
  - by simplify_eq.
  - destruct (init cfg fuel i s) as [[[] t]|] eqn:Hcall; [| |done].
    + rewrite (IH _ _ _ Hrun). by eapply init_untouched.
    + simplify_eq. by eapply init_untouched.
Qed.

Lemma untouched_identity (nodes nodes' : list Node) :
  untouched <$> nodes' = untouched <$> nodes → identity <$> nodes' = identity <$> nodes.
Proof.
  intros Heq.
  change identity
    with ((λ x : string * Z * ConditionState * bool
                 * gmap HashableDimensionKey ConditionState * Condition,
             (x.1.1.1.1.1, x.1.1.1.1.2)) ∘ untouched).
  by rewrite !list_fmap_compose, Heq.
Qed.

Lemma init_cfgDepthWithin fuel : ∀ i s s',
  init cfg fuel i s = Some (true, s') → cfgDepthWithin cfg fuel i.
Proof.
  induction fuel as [|fuel IH]; intros i s s' Hinit; [done|].
  apply init_true_inv in Hinit as (f & c & own & js & s2 & ? & Hc & Hown & Hch & ->).
  simplify_eq.
  destruct (initChildren_inv (λ _, True) (λ _, True)
              (λ j _, cfgDepthWithin cfg f j) (init cfg f))
    with (children := childNames c)
         (s := set_stack i true s) (r := Some js) (s2 := s2)
    as [_ Hok]; try done.
  - intros j t r t' _ _ Hcall. split; [done|]. intros ->. eauto.
  - destruct (Hok js eq_refl) as (_ & Hmap & HQ & _).
    intros c' js' ? ?. by simplify_eq.
Qed.

Lemma initEach_true_each fuel idxs : ∀ s s',
  initEach cfg fuel idxs s = Some (true, s') →
  ∀ i, i ∈ idxs → ∃ t t', init cfg fuel i t = Some (true, t').
Proof.
  induction idxs as [|i rest IH]; intros s s' Hrun k Hk; simpl in Hrun.
  - by apply elem_of_nil in Hk.
  - destruct (init cfg fuel i s) as [[[] t]|] eqn:Hcall; [| done|done].
    apply elem_of_cons in Hk as [->|Hk]; [eauto|by eapply IH].
Qed.

Lemma closed_depthWithin (nodes : list Node) :
  closed cfg nodes → (∀ k n, nodes !! k = Some n → mInitialized (base n) = true) →
  ∀ fuel i, cfgDepthWithin cfg fuel i → depthWithin nodes fuel i.
Proof.
  intros Hcl Hall. induction fuel as [|fuel IH]; intros i Hdepth; [done|].
  simpl in *. intros n Hn.
  destruct (Hcl i n Hn (Hall _ _ Hn)) as (c & own & js & Hc & _ & Hmap & -> & _).
  eapply Forall_impl; [by eapply Hdepth|]. apply IH.
Qed.

(** A loaded arena has the length of the configuration, all its nodes
    are initialized and closed, and the graph of its children is no
    deeper than the arena is long. *)
Lemma loadConfiguration_loaded arena :
  loadConfiguration cfg = Some arena →
  length arena = length (allConditionConfig cfg)
  ∧ closed cfg arena
  ∧ (∀ k n, arena !! k = Some n → mInitialized (base n) = true)
  ∧ ∀ i, depthWithin arena (S (length arena)) i.
Proof.
  unfold loadConfiguration.
  destruct (initConditions cfg (buildArena cfg)) as [[[] s]|] eqn:Hrun; [|done|done].
  intros ?; simplify_eq. apply initConditions_true in Hrun.
  pose proof (initEach_untouched _ _ _ _ _ Hrun) as Hids.
  assert (length (allConditionTrackers s) = length (allConditionConfig cfg)) as Hlen.
  { rewrite <- buildArena_length.
    by rewrite <- (length_fmap untouched), Hids, length_fmap. }
  destruct (initEach_closed _ _ _ _ Hrun) as (Hcl & Hall & _).
  { intros k Hk%elem_of_seq. apply lookup_replicate. split; [done|lia]. }
  { apply buildArena_length. }
  { apply buildArena_closed. }
  assert (∀ k n, allConditionTrackers s !! k = Some n → mInitialized (base n) = true)
    as Hinit.
  { intros k n Hn. destruct (Hall k) as (n' & Hn' & ?); [|congruence].
    apply elem_of_seq. rewrite buildArena_length, <- Hlen.
    apply lookup_lt_Some in Hn. lia. }
  repeat split; try done.
  intros i. destruct (decide (i < length (allConditionTrackers s))) as [Hi|Hi].
  - apply closed_depthWithin; [done|done|].
    destruct (initEach_true_each _ _ _ _ Hrun i) as (t & t' & Hcall).
    { apply elem_of_seq. rewrite buildArena_length, <- Hlen. lia. }
    rewrite Hlen, <- buildArena_length. by eapply init_cfgDepthWithin.
  - simpl. intros n Hn. apply lookup_lt_Some in Hn. lia.
Qed.


(** *** The matcher sets, stated on the configuration *)

Lemma mapM_elem_iff {A B} (f : A → option B) (l : list A) (k : list B) y :
  mapM f l = Some k → (y ∈ k ↔ ∃ x, x ∈ l ∧ f x = Some y).
Proof.
  intros Hmap%mapM_Some_1. induction Hmap as [|x z l k Hx _ IH].
  - split; [by intros ?%elem_of_nil|by intros (x & ?%elem_of_nil & _)].
  - rewrite elem_of_cons, IH. split.
    + intros [->|(x' & Hin & Hx')]; [exists x|exists x']; split; try done;
        [by left|by right].
    + intros (x' & [->|Hin]%elem_of_cons & Hx'); [left; congruence|right; eauto].
Qed.

Lemma edge_iff_child i c js j :
  allConditionConfig cfg !! i = Some c →
  mapM (λ child, names !! child) (childNames c) = Some js →
  (j ∈ js ↔ edge cfg i j).
Proof.
  intros Hc Hmap. rewrite (mapM_elem_iff _ _ _ _ Hmap). split.
  - intros (child & Hin & Hj). by exists c, child.
  - intros (c' & child & Hc' & Hin & Hj). simplify_eq. by exists child.
Qed.

(** In a closed node the set is read off the configuration: a matcher is
    reported exactly when the node names it or a child reports it. *)
Lemma nodeClosed_usesMatcher (t : list Node) i n m :
  t !! i = Some n → nodeClosed cfg t i n →
  (usesMatcher t i m
   ↔ directMatcherOf cfg i m ∨ ∃ j, edge cfg i j ∧ usesMatcher t j m).
Proof.
  intros Hn (c & own & js & Hc & Hown & Hmap & _ & Hused & _).
  unfold resolveMatchers in Hown.
  destruct (mapM (λ name, logTrackerMap cfg !! name) (directMatchers c))
    as [ms|] eqn:Hms; [|done]. simpl in Hown. simplify_eq.
  assert (usesMatcher t i m ↔ m ∈ mTrackerIndex (base n)) as ->.
  { split; [intros (n' & ? & ?); by simplify_eq|intros ?; by exists n]. }
  rewrite Hused, elem_of_union, elem_of_list_to_set, (mapM_elem_iff _ _ _ _ Hms),
    elem_of_union_list.
  split; (intros [Hown|Hchild]; [left|right]).
  - destruct Hown as (name & ? & ?). by exists c, name.
  - destruct Hchild as (X & (j & -> & Hj)%list_elem_of_fmap & Hm).
    exists j. split; [by apply (edge_iff_child i c js)|].
    unfold usedOf in Hm. destruct (t !! j) as [nj|] eqn:Hnj; simpl in Hm;
      [by exists nj|by apply not_elem_of_empty in Hm].
  - destruct Hown as (c' & name & ? & ? & ?). simplify_eq. by exists name.
  - destruct Hchild as (j & Hedge & nj & Hnj & Hm). exists (usedOf t j). split.
    + apply list_elem_of_fmap. exists j.
      split; [done|by apply (edge_iff_child i c js)].
    + unfold usedOf. by rewrite Hnj.
Qed.

Section ClosedArena.
Variable t : list Node.
Hypothesis Hclosed : closed cfg t.
Hypothesis Hinit : ∀ k n, t !! k = Some n → mInitialized (base n) = true.
Hypothesis Hlen : length t = length (allConditionConfig cfg).

Lemma closed_usesMatcher_local i m :
  is_Some (allConditionConfig cfg !! i) →
  (usesMatcher t i m
   ↔ directMatcherOf cfg i m ∨ ∃ j, edge cfg i j ∧ usesMatcher t j m).
Proof.
  intros Hi%lookup_lt_is_Some. rewrite <- Hlen in Hi.
  destruct (lookup_lt_is_Some_2 _ _ Hi) as [n Hn].
  apply (nodeClosed_usesMatcher t i n m Hn), Hclosed; eauto.
Qed.

Lemma usesMatcher_reach fuel : ∀ i m,
  cfgDepthWithin cfg fuel i → usesMatcher t i m →
  ∃ k, rtc (edge cfg) i k ∧ directMatcherOf cfg k m.
Proof.
  induction fuel as [|fuel IH]; intros i m Hdepth Huse; [done|].
  pose proof Huse as (n & Hn & _).
  destruct (Hclosed i n Hn (Hinit _ _ Hn)) as (c & own & js & Hc & _ & Hmap & _).
  apply closed_usesMatcher_local in Huse as [Hown|(j & Hedge & Hj)]; [| |by eauto].
  - exists i. split; [apply rtc_refl|done].
  - simpl in Hdepth. specialize (Hdepth c js Hc Hmap).
    rewrite Forall_forall in Hdepth.
    destruct (IH j m) as (k & Hjk & Hk); [|done|].
    + by apply Hdepth, (edge_iff_child i c js).
    + exists k. split; [by eapply rtc_l|done].
Qed.

Lemma reach_usesMatcher i k m :
  rtc (edge cfg) i k → directMatcherOf cfg k m → usesMatcher t i m.
Proof.
  intros Hik Hk. induction Hik as [i|i j k Hedge _ IH].
  - apply closed_usesMatcher_local; [|by left].
    destruct Hk as (c & _ & -> & _). eauto.
  - apply closed_usesMatcher_local; [|right; exists j; auto].
    destruct Hedge as (c & _ & -> & _). eauto.
Qed.
End ClosedArena.
End Initializer.





(** C3.  For an acyclic, fully name-resolvable configuration the batch
    succeeds; afterwards every node is initialized, and the set its
    [getLogTrackerIndex()] returns holds exactly the matchers the node
    names itself and those the sets of its children hold, which are the
    matchers named by the nodes it reaches in the dependency graph. *)
Theorem init_acyclic_used_matchers (cfg : StatsdConfig) :
  acyclic cfg → resolvable cfg →
  ∃ s', initConditions cfg (buildArena cfg) = Some (true, s')
    ∧ ∀ i c, allConditionConfig cfg !! i = Some c →
        initialized (allConditionTrackers s') i
        ∧ (∀ m, usesMatcher (allConditionTrackers s') i m
                ↔ directMatcherOf cfg i m
                  ∨ ∃ j, edge cfg i j ∧ usesMatcher (allConditionTrackers s') j m)
        ∧ (∀ m, usesMatcher (allConditionTrackers s') i m
                ↔ ∃ k, rtc (edge cfg) i k ∧ directMatcherOf cfg k m).
Proof.
  intros Hacyc Hres.
  destruct (initConditions_returns cfg (buildArena cfg)) as [[r s'] Hrun].
  assert (r = true) as ->.
  { destruct r; [done|]. unfold initConditions in Hrun.
    destruct (initEach _ _ _ _) as [[b t]|] eqn:Heach; [|done].
    assert (b = true) as ->; [|done].
    eapply (initEach_acyclic_true cfg); [done|done| | |exact Heach].
    - intros i Hi%elem_of_seq. rewrite buildArena_length in Hi. lia.
    - simpl. by rewrite buildArena_length. }
  exists s'. split; [done|].
  assert (loadConfiguration cfg = Some (allConditionTrackers s')) as Hload
    by (unfold loadConfiguration; by rewrite Hrun).
  destruct (loadConfiguration_loaded cfg _ Hload) as (Hlen & Hcl & Hall & _).
  apply initConditions_true in Hrun.
  intros i c Hc.
  assert (i < length (allConditionConfig cfg))%nat as Hi
    by (by eapply lookup_lt_Some).
  split; [|split].
  - destruct (lookup_lt_is_Some_2 (allConditionTrackers s') i) as [n Hn]; [lia|].
    exists n. eauto.
  - intros m. apply closed_usesMatcher_local; eauto.
  - intros m. split.
    + destruct (initEach_true_each cfg _ _ _ _ Hrun i) as (t & t' & Hcall).
      { apply elem_of_seq. rewrite buildArena_length. lia. }
      apply (usesMatcher_reach cfg _ Hcl Hall Hlen (S (length (buildArena cfg)))).
      by eapply init_cfgDepthWithin.
    + intros (k & Hik & Hk). by eapply reach_usesMatcher.
Qed.

Lemma scenario_acyclic : acyclic scenario.
Proof.
  assert (∀ i j, edge scenario i j → (j < i)%nat) as Hdown.
  { intros i j (c & child & Hc & Hin & Hj).
    destruct i as [|[|[|i]]]; simplify_eq/=; unfold childNames in Hin; simpl in Hin.
    - by apply elem_of_nil in Hin.
    - apply list_elem_of_singleton in Hin as ->. vm_compute in Hj. simplify_eq. lia.
    - apply elem_of_cons in Hin as [->|Hin]; [vm_compute in Hj; simplify_eq; lia|].
      apply list_elem_of_singleton in Hin as ->. vm_compute in Hj. simplify_eq. lia. }
  assert (∀ i j, tc (edge scenario) i j → (j < i)%nat) as Htc.
  { intros i j Hij. induction Hij as [i j H|i j k H _ IH]; [by apply Hdown|].
    apply Hdown in H. lia. }
  intros i Hi%Htc. lia.
Qed.

Lemma scenario_resolvable : resolvable scenario.
Proof.
  split; [by apply (bool_decide_unpack _); vm_compute|].
  intros c Hc. simpl in Hc.
  repeat (apply elem_of_cons in Hc as [->|Hc]); [| | |by apply elem_of_nil in Hc];
    (split; [intros child Hin|intros m Hin]);
    unfold childNames, directMatchers in Hin; simpl in Hin;
    repeat (apply elem_of_cons in Hin as [->|Hin]);
    try (by apply elem_of_nil in Hin).
  all: try (eexists; split; [by vm_compute|simpl; lia]).
  by exists 0.
Qed.

Lemma init_acyclic_used_matchers_witness :
  acyclic scenario ∧ resolvable scenario
  ∧ ∃ s', initConditions scenario (buildArena scenario) = Some (true, s')
    ∧ ∀ i c, allConditionConfig scenario !! i = Some c →
        initialized (allConditionTrackers s') i
        ∧ (∀ m, usesMatcher (allConditionTrackers s') i m
                ↔ directMatcherOf scenario i m
                  ∨ ∃ j, edge scenario i j
                         ∧ usesMatcher (allConditionTrackers s') j m)
        ∧ (∀ m, usesMatcher (allConditionTrackers s') i m
                ↔ ∃ k, rtc (edge scenario) i k ∧ directMatcherOf scenario k m).
Proof.
  split; [apply scenario_acyclic|]. split; [apply scenario_resolvable|].
  apply (init_acyclic_used_matchers scenario);
    [apply scenario_acyclic|apply scenario_resolvable].
Defined.

(** ** Properties of the Evaluator *)

Section EvaluatorProperties.
Context {LogEvent : Type} `{ConditionRules LogEvent}.

Local Open Scope nat_scope.

Implicit Types (st : EvalState) (event : LogEvent) (vs : list MatchingState).

(** What evaluating node [i] does: nothing when [i] is outside the
    arena; otherwise it overwrites slot [i] of the arena, of the cache
    and of the change flags, and of the node only the state. *)
Lemma evaluateCondition_cases i event vs st :
  (allConditions st !! i = None ∧ evaluateCondition i event vs st = st)
  ∨ ∃ n n' new sub,
      allConditions st !! i = Some n
      ∧ evaluateCondition i event vs st
        = mkEvalState
            (<[i := n']> (allConditions st))
            (<[i := new]> (conditionCache st))
            (<[i := bool_decide (new ≠ default kUnknown (conditionCache st !! i))
                    || (mSliced (base n) && sub)]> (conditionChanged st))
      ∧ static n' = static n
      ∧ mSliced (base n') = mSliced (base n)
      ∧ mNonSlicedConditionState (base n') = new
      ∧ match c_body (config n) with
        | SimpleCondition _ =>
            evaluateSimple (config n) event vs (mSlicedConditionState n)
                           (mNonSlicedConditionState (base n))
            = (mSlicedConditionState n', new)
            ∧ sub = bool_decide (mSlicedConditionState n' ≠ mSlicedConditionState n)
        | CombinationCondition op _ =>
            new = evaluateCombinationCondition op
                    ((λ j, conditionCache st !!! j) <$> mChildren n)
            ∧ sub = existsb (λ j, default false (conditionChanged st !! j))
                            (mChildren n)
        end.
Proof.
  unfold evaluateCondition.
  destruct (allConditions st !! i) as [n|] eqn:Hn; [right|by left].
  destruct (c_body (config n)) as [ms|op cs] eqn:Hbody.
  - destruct (evaluateSimple _ _ _ _ _) as [slices new] eqn:Hrule.
    eexists n, _, new, _. by rewrite Hbody.
  - eexists n, _, _, _. by rewrite Hbody.
Qed.

Lemma evaluateCondition_length i event vs st :
  length (allConditions (evaluateCondition i event vs st)) = length (allConditions st)
  ∧ length (conditionCache (evaluateCondition i event vs st))
    = length (conditionCache st)
  ∧ length (conditionChanged (evaluateCondition i event vs st))
    = length (conditionChanged st).
Proof.
  destruct (evaluateCondition_cases i event vs st)
    as [[_ ->]|(n & n' & new & sub & _ & -> & _)]; [done|].
  simpl. by rewrite !length_insert.
Qed.

(** A node writes no slot but its own. *)
Lemma evaluateCondition_frame i k event vs st :
  k ≠ i →
  allConditions (evaluateCondition i event vs st) !! k = allConditions st !! k
  ∧ conditionCache (evaluateCondition i event vs st) !! k = conditionCache st !! k
  ∧ conditionChanged (evaluateCondition i event vs st) !! k
    = conditionChanged st !! k.
Proof.
  intros Hne.
  destruct (evaluateCondition_cases i event vs st)
    as [[_ ->]|(n & n' & new & sub & _ & -> & _)]; [done|].
  simpl. by rewrite !list_lookup_insert_ne.
Qed.

Lemma evaluateCondition_static i event vs st :
  static <$> allConditions (evaluateCondition i event vs st)
  = static <$> allConditions st.
Proof.
  destruct (evaluateCondition_cases i event vs st)
    as [[_ ->]|(n & n' & new & sub & Hn & -> & Hstatic & _)]; [done|].
  simpl. rewrite list_fmap_insert, Hstatic. apply list_insert_id.
  by rewrite list_lookup_fmap, Hn.
Qed.

Lemma evaluateEach_length idxs event vs : ∀ st,
  length (allConditions (evaluateEach idxs event vs st)) = length (allConditions st)
  ∧ length (conditionCache (evaluateEach idxs event vs st))
    = length (conditionCache st)
  ∧ length (conditionChanged (evaluateEach idxs event vs st))
    = length (conditionChanged st).
Proof.
  induction idxs as [|i rest IH]; intros st; simpl; [done|].
  destruct (IH (evaluateCondition i event vs st)) as (-> & -> & ->).
  apply evaluateCondition_length.
Qed.

Lemma evaluateEach_frame idxs k event vs : ∀ st,
  k ∉ idxs →
  allConditions (evaluateEach idxs event vs st) !! k = allConditions st !! k
  ∧ conditionCache (evaluateEach idxs event vs st) !! k = conditionCache st !! k
  ∧ conditionChanged (evaluateEach idxs event vs st) !! k
    = conditionChanged st !! k.
Proof.
  induction idxs as [|i rest IH]; intros st Hk; simpl; [done|].
  apply not_elem_of_cons in Hk as [Hne Hk].
  destruct (IH (evaluateCondition i event vs st) Hk) as (-> & -> & ->).
  by apply evaluateCondition_frame.
Qed.

Lemma evaluateEach_static idxs event vs : ∀ st,
  static <$> allConditions (evaluateEach idxs event vs st)
  = static <$> allConditions st.
Proof.
  induction idxs as [|i rest IH]; intros st; simpl; [done|].
  rewrite <- (evaluateCondition_static i event vs st). apply IH.
Qed.

Lemma evaluateEach_app l1 l2 event vs st :
  evaluateEach (l1 ++ l2) event vs st
  = evaluateEach l2 event vs (evaluateEach l1 event vs st).
Proof. apply foldl_app. Qed.

Lemma seq_split i n : i < n → seq 0 n = seq 0 i ++ i :: seq (S i) (n - S i).
Proof.
  intros Hi. replace n with (i + S (n - S i)) at 1 by lia. by rewrite seq_app.
Qed.

(** After a pass, what slot [i] of the arena, of the cache and of the
    change flags hold was written when node [i] was evaluated, in the
    state [st1] the nodes before it had left: there the node and its cache
    slot were as before the pass, and the change flags of the nodes before
    it were as they are after the pass. *)
Lemma evaluatePass_slot i n event vs st :
  allConditions st !! i = Some n →
  i < length (conditionCache st) → i < length (conditionChanged st) →
  ∃ st1 n' new sub,
    (∀ j, j < i → conditionChanged st1 !! j
                  = conditionChanged (evaluatePass event vs st) !! j)
    ∧ allConditions (evaluatePass event vs st) !! i = Some n'
    ∧ conditionCache (evaluatePass event vs st) !! i = Some new
    ∧ conditionChanged (evaluatePass event vs st) !! i
      = Some (bool_decide (Some new ≠ conditionCache st !! i)
              || (mSliced (base n) && sub))
    ∧ match c_body (config n) with
      | SimpleCondition _ =>
          evaluateSimple (config n) event vs (mSlicedConditionState n)
                         (mNonSlicedConditionState (base n))
          = (mSlicedConditionState n', new)
          ∧ sub = bool_decide (mSlicedConditionState n' ≠ mSlicedConditionState n)
      | CombinationCondition op _ =>
          new = evaluateCombinationCondition op
                  ((λ j, conditionCache st1 !!! j) <$> mChildren n)
          ∧ sub = existsb (λ j, default false (conditionChanged st1 !! j))
                          (mChildren n)
      end.
Proof.
  intros Hn Hcache Hchanged. unfold evaluatePass.
  pose proof (lookup_lt_Some _ _ _ Hn) as Hi.
  rewrite (seq_split i) by done.
  change (i :: ?l) with ([i] ++ l). rewrite !evaluateEach_app.
  set (st1 := evaluateEach (seq 0 i) event vs st).
  set (rest := seq (S i) (length (allConditions st) - S i)).
  destruct (evaluateEach_frame (seq 0 i) i event vs st) as (Hn1 & Hc1 & _).
  { rewrite elem_of_seq. lia. }
  destruct (evaluateEach_length (seq 0 i) event vs st) as (Hln1 & Hlc1 & Hlf1).
  fold st1 in Hn1, Hc1, Hln1, Hlc1, Hlf1.
  assert (∀ j, j ≤ i → j ∉ rest) as Hrest.
  { intros j Hj. unfold rest. rewrite elem_of_seq. lia. }
  destruct (evaluateEach_frame rest i event vs (evaluateEach [i] event vs st1))
    as (-> & -> & ->); [by apply Hrest|].
  exists st1.
  assert (∀ j, j < i →
            conditionChanged st1 !! j
            = conditionChanged
                (evaluateEach rest event vs (evaluateEach [i] event vs st1)) !! j)
    as Hbefore.
  { intros j Hj.
    destruct (evaluateEach_frame rest j event vs (evaluateEach [i] event vs st1))
      as (_ & _ & ->); [apply Hrest; lia|].
    simpl. destruct (evaluateCondition_frame i j event vs st1) as (_ & _ & ->);
      [lia|done]. }
  simpl.
  destruct (evaluateCondition_cases i event vs st1)
    as [[Hnone _]|(m & m' & new & sub & Hm & Heq & _ & _ & _ & Hkind)]; [congruence|].
  rewrite Hn1 in Hm. simplify_eq. exists m', new, sub. rewrite Heq. simpl.
  rewrite !list_lookup_insert_eq by lia.
  split; [by rewrite <- Heq|]. split; [done|]. split; [done|]. split; [|done].
  rewrite Hc1. destruct (lookup_lt_is_Some_2 _ _ Hcache) as [old ->]. simpl.
  do 3 f_equal. apply bool_decide_ext. naive_solver.
Qed.



(** Whatever the rules, when the rule of a sliced atomic node changes one
    of its states per dimension key and leaves its non-sliced state at
    the value its cache slot holds, the pass sets the node's change flag
    and leaves its cache slot as it was. *)
Lemma sliced_key_change_sets_flag st event vs i n slices new :
  allConditions st !! i = Some n →
  i < length (conditionChanged st) →
  conditionCache st !! i = Some new →
  mSliced (base n) = true →
  (∃ ms, c_body (config n) = SimpleCondition ms) →
  evaluateSimple (config n) event vs (mSlicedConditionState n)
                 (mNonSlicedConditionState (base n)) = (slices, new) →
  slices ≠ mSlicedConditionState n →
  conditionChanged (evaluatePass event vs st) !! i = Some true
  ∧ conditionCache (evaluatePass event vs st) !! i = conditionCache st !! i.
Proof.
  intros Hn Hchanged Hold Hsliced [ms Hbody] Hrule Hdiff.
  destruct (evaluatePass_slot i n event vs st Hn) as
    (st1 & n' & new' & sub & _ & _ & Hnew & Hflag & Hkind);
    [by eapply lookup_lt_Some|done|].
  rewrite Hbody, Hrule in Hkind. destruct Hkind as [[= <- <-] ->].
  rewrite Hflag, Hnew, Hold, Hsliced. split; [|done].
  rewrite (bool_decide_eq_true_2 _ Hdiff). simpl. by rewrite orb_true_r.
Qed.

(** *** The dimensioned query *)

Lemma queryChildren_inv (P : EvalState → Prop)
    (query : nat → EvalState → option EvalState) js :
  (∀ j st st', j ∈ js → P st → query j st = Some st' → P st') →
  ∀ st st', P st → queryChildren query js st = Some st' → P st'.
Proof.
  induction js as [|j rest IH]; intros Hq st st' HP Hrun; simpl in Hrun.
  - by simplify_eq.
  - destruct (query j st) as [st1|] eqn:Hj; [|done].
    eapply (IH (λ k a b Hk, Hq k a b (list_elem_of_further _ _ _ Hk))); [|done].
    eapply Hq; [by left|done|done].
Qed.

(** The query changes nothing but the cache, and not its length. *)
Lemma isConditionMet_params_frame fuel params : ∀ i st st',
  isConditionMet_params fuel i params st = Some st' →
  allConditions st' = allConditions st
  ∧ conditionChanged st' = conditionChanged st
  ∧ length (conditionCache st') = length (conditionCache st)
  ∧ ∀ k, length (allConditions st) ≤ k →
         conditionCache st' !! k = conditionCache st !! k.
Proof.
  induction fuel as [|fuel IH]; intros i st st' Hq; simpl in Hq; [done|].
  destruct (allConditions st !! i) as [n|] eqn:Hi; [|by simplify_eq].
  apply lookup_lt_Some in Hi.
  destruct (c_body (config n)) as [ms|op cs].
  - simplify_eq. simpl. rewrite length_insert. repeat split.
    intros k Hk. apply list_lookup_insert_ne. lia.
  - destruct (queryChildren _ _ _) as [st1|] eqn:Hch; [|done]. simplify_eq.
    simpl. rewrite length_insert.
    assert (allConditions st1 = allConditions st
            ∧ conditionChanged st1 = conditionChanged st
            ∧ length (conditionCache st1) = length (conditionCache st)
            ∧ ∀ k, length (allConditions st) ≤ k →
                   conditionCache st1 !! k = conditionCache st !! k)
      as (? & ? & ? & Hout).
    { eapply (queryChildren_inv
                (λ t, allConditions t = allConditions st
                      ∧ conditionChanged t = conditionChanged st
                      ∧ length (conditionCache t) = length (conditionCache st)
                      ∧ ∀ k, length (allConditions st) ≤ k →
                             conditionCache t !! k = conditionCache st !! k));
        [|done|exact Hch].
      intros j t t' _ (Ha & Hb & Hc & Hd) Hj.
      destruct (IH _ _ _ Hj) as (Ha' & -> & -> & Hd').
      rewrite Ha' , Ha. repeat split; try done.
      intros k Hk. rewrite Hd' by (rewrite Ha; lia). by apply Hd. }
    repeat split; try done.
    intros k Hk. rewrite list_lookup_insert_ne by lia. by apply Hout.
Qed.

Lemma queryChildren_returns (query : nat → EvalState → option EvalState)
    (nodes : list Node) js :
  (∀ j st, j ∈ js → allConditions st = nodes → is_Some (query j st)) →
  (∀ j st st', query j st = Some st' → allConditions st' = allConditions st) →
  ∀ st, allConditions st = nodes → is_Some (queryChildren query js st).
Proof.
  induction js as [|j rest IH]; intros Hret Hkeep st Hst; simpl; [done|].
  destruct (Hret j st) as [st1 Hj]; [by left|done|]. rewrite Hj.
  apply IH; [|done|].
  - intros k t Hk. apply Hret. by right.
  - by rewrite (Hkeep _ _ _ Hj).
Qed.

(** The query returns when the graph below the node is no deeper than
    its budget. *)
Lemma isConditionMet_params_returns fuel params : ∀ i st,
  depthWithin (allConditions st) fuel i →
  is_Some (isConditionMet_params fuel i params st).
Proof.
  induction fuel as [|fuel IH]; intros i st Hdepth; simpl in *; [done|].
  destruct (allConditions st !! i) as [n|] eqn:Hn; [|done].
  destruct (c_body (config n)) as [ms|op cs]; [done|].
  specialize (Hdepth n eq_refl). rewrite Forall_forall in Hdepth.
  destruct (queryChildren_returns
              (λ j, isConditionMet_params fuel j params) (allConditions st)
              (mChildren n)) with (st := st) as [st1 ->]; try done.
  - intros j t Hj Ht. apply IH. rewrite Ht. by apply Hdepth.
  - intros j t t' Hq.
    by destruct (isConditionMet_params_frame _ _ _ _ _ Hq) as (? & _).
Qed.

Lemma agree_set D i c st1 st2 :
  agree D st1 st2 →
  agree (λ k, D k ∨ k = i) (set_conditionCache i c st1) (set_conditionCache i c st2).
Proof.
  intros (Hn & Hl & Hc). repeat split; simpl; [done|by rewrite !length_insert|].
  intros k Hk. rewrite !list_lookup_insert, Hl.
  case_decide; [done|]. destruct Hk as [[Hk| ->]|Hk]; [apply Hc; tauto| |apply Hc; tauto].
  rewrite !lookup_ge_None_2; [done|lia|lia].
Qed.

Lemma queryChildren_agree (query : nat → EvalState → option EvalState) js :
  (∀ j D st1 st2 st1' st2',
     agree D st1 st2 → query j st1 = Some st1' → query j st2 = Some st2' →
     agree (λ k, D k ∨ k = j) st1' st2') →
  ∀ D st1 st2 st1' st2',
    agree D st1 st2 →
    queryChildren query js st1 = Some st1' →
    queryChildren query js st2 = Some st2' →
    agree (λ k, D k ∨ k ∈ js) st1' st2'.
Proof.
  intros Hq. induction js as [|j rest IH];
    intros D st1 st2 st1' st2' Hag H1 H2; simpl in *.
  - simplify_eq. destruct Hag as (? & ? & Hc). repeat split; [done|done|].
    intros k [[Hk|Hk%elem_of_nil]|Hk]; [apply Hc; tauto|done|apply Hc; tauto].
  - destruct (query j st1) as [t1|] eqn:Hj1; [|done].
    destruct (query j st2) as [t2|] eqn:Hj2; [|done].
    destruct (IH _ _ _ _ _ (Hq _ _ _ _ _ _ Hag Hj1 Hj2) H1 H2) as (? & ? & Hc).
    repeat split; [done|done|].
    intros k [[Hk|[->|Hk]%elem_of_cons]|Hk]; apply Hc; tauto.
Qed.

(** The slot the query leaves for node [i] does not depend on what the
    incoming cache held in the slots of the nodes. *)
Lemma isConditionMet_params_agree fuel params : ∀ i D st1 st2 st1' st2',
  agree D st1 st2 →
  isConditionMet_params fuel i params st1 = Some st1' →
  isConditionMet_params fuel i params st2 = Some st2' →
  agree (λ k, D k ∨ k = i) st1' st2'.
Proof.
  induction fuel as [|fuel IH]; intros i D st1 st2 st1' st2' Hag H1 H2;
    simpl in *; [done|].
  pose proof Hag as (Hn & Hl & Hc). rewrite <- Hn in H2.
  destruct (allConditions st1 !! i) as [n|] eqn:Hi.
  2:{ simplify_eq. repeat split; [done|done|].
      apply lookup_ge_None in Hi.
      intros k [[Hk| ->]|Hk]; apply Hc; tauto. }
  destruct (c_body (config n)) as [ms|op cs].
  - simplify_eq. by apply agree_set.
  - destruct (queryChildren _ _ st1) as [t1|] eqn:Hch1; [|done].
    destruct (queryChildren _ _ st2) as [t2|] eqn:Hch2; [|done].
    simplify_eq.
    pose proof (queryChildren_agree _ (mChildren n)
                  (λ j, IH j) D st1 st2 t1 t2 Hag Hch1 Hch2) as Hag'.
    assert ((λ j, conditionCache t1 !!! j) <$> mChildren n
            = (λ j, conditionCache t2 !!! j) <$> mChildren n) as ->.
    { apply list_fmap_ext. intros ? j Hj%list_elem_of_lookup_2.
      rewrite !list_lookup_total_alt. destruct Hag' as (_ & _ & Hc').
      rewrite Hc'; [done|tauto]. }
    destruct (agree_set _ i
                (evaluateCombinationCondition op
                   ((λ j, conditionCache t2 !!! j) <$> mChildren n)) t1 t2 Hag')
      as (? & ? & Hc'').
    repeat split; [done|done|]. intros k Hk. apply Hc''. simpl in *. tauto.
Qed.

(** *** Runs *)

Lemma exec_static op st :
  static <$> allConditions (exec op st) = static <$> allConditions st.
Proof.
  destruct op as [event vs|i b|i params]; unfold exec.
  - apply evaluateEach_static.
  - simpl. rewrite (list_fmap_alter static (on_base (after (setSliced b))) id);
      [by apply list_alter_id|by apply Forall_true].
  - destruct (isConditionMet_params (S (length (allConditions st))) i params st)
      as [st'|] eqn:Hq; [|done].
    simpl. by destruct (isConditionMet_params_frame _ _ _ _ _ Hq) as (-> & _).
Qed.

Lemma run_static ops : ∀ st,
  static <$> allConditions (run ops st) = static <$> allConditions st.
Proof.
  induction ops as [|op ops IH]; intros st; simpl; [done|].
  rewrite <- (exec_static op st). apply IH.
Qed.

Lemma static_length (nodes nodes' : list Node) :
  static <$> nodes' = static <$> nodes → length nodes' = length nodes.
Proof. intros Heq. by rewrite <- (length_fmap static), Heq, length_fmap. Qed.

Lemma static_identity (nodes nodes' : list Node) :
  static <$> nodes' = static <$> nodes → identity <$> nodes' = identity <$> nodes.
Proof.
  intros Heq.
  change identity with ((λ x : string * Z * bool * gset Z * list nat * Condition,
                           (x.1.1.1.1.1, x.1.1.1.1.2)) ∘ static).
  by rewrite !list_fmap_compose, Heq.
Qed.

Lemma depthWithin_static (nodes nodes' : list Node) :
  static <$> nodes' = static <$> nodes →
  ∀ fuel i, depthWithin nodes fuel i → depthWithin nodes' fuel i.
Proof.
  intros Heq. induction fuel as [|fuel IH]; intros i Hdepth; [done|].
  simpl in *. intros n' Hn'.
  assert ((static <$> nodes) !! i = Some (static n')) as Hn
    by (by rewrite <- Heq, list_lookup_fmap, Hn').
  rewrite list_lookup_fmap in Hn.
  destruct (nodes !! i) as [n|] eqn:Hi; [|done].
  assert (mChildren n' = mChildren n) as -> by (unfold static in Hn; by simplify_eq/=).
  eapply Forall_impl; [by apply Hdepth|]. apply IH.
Qed.

Lemma queryTimes_same fuel i params : ∀ k st st1,
  depthWithin (allConditions st) fuel i →
  isConditionMet_params fuel i params st = Some st1 →
  ∃ stk, queryTimes (S k) fuel i params st = Some stk
         ∧ allConditions stk = allConditions st
         ∧ conditionCache stk !! i = conditionCache st1 !! i.
Proof.
  induction k as [|k IH]; intros st st1 Hdepth Hq; simpl.
  - rewrite Hq. exists st1.
    by destruct (isConditionMet_params_frame _ _ _ _ _ Hq) as (-> & _).
  - rewrite Hq.
    destruct (isConditionMet_params_frame _ _ _ _ _ Hq) as (Hn & _ & Hl & Hout).
    rewrite <- Hn in Hdepth.
    destruct (isConditionMet_params_returns fuel params i st1 Hdepth) as [st2 Hq2].
    destruct (IH st1 st2 Hdepth Hq2) as (stk & Hk & Hnk & Hck).
    exists stk. split; [exact Hk|]. split; [congruence|].
    rewrite Hck. symmetry.
    destruct (isConditionMet_params_agree fuel params i (λ _, False) st st1 st1 st2)
      as (_ & _ & Hag); [|done|done|apply Hag; tauto].
    repeat split; [done|done|]. intros j [[]|Hj]. symmetry. by apply Hout.
Qed.


(** C5.  On a loaded arena, after any run, the dimensioned query
    returns; called again and again with the same parameters, with no
    pass in between, it leaves the same answer in the slot of the
    queried node, and it leaves the arena as it was, so that no node's
    [isConditionMet()] changes. *)
Theorem isConditionMet_params_idempotent
    (cfg : StatsdConfig) (arena : list Node) (ops : list (Op LogEvent))
    (i : nat) (params : gmap string HashableDimensionKey) (k : nat) :
  loadConfiguration cfg = Some arena →
  let st := run ops (freshEvalState arena) in
  let fuel := S (length (allConditions st)) in
  ∃ st1 stk,
    isConditionMet_params fuel i params st = Some st1
    ∧ queryTimes (S k) fuel i params st = Some stk
    ∧ conditionCache stk !! i = conditionCache st1 !! i
    ∧ allConditions stk = allConditions st
    ∧ (λ n, result isConditionMet (base n)) <$> allConditions stk
      = (λ n, result isConditionMet (base n)) <$> allConditions st.
Proof.
  intros Hload st fuel.
  destruct (loadConfiguration_loaded cfg arena Hload) as (_ & _ & _ & Hdepth).
  pose proof (run_static ops (freshEvalState arena)) as Hstatic.
  fold st in Hstatic. simpl in Hstatic.
  assert (depthWithin (allConditions st) fuel i) as Hd.
  { unfold fuel. rewrite (static_length _ _ Hstatic).
    by apply (depthWithin_static arena). }
  destruct (isConditionMet_params_returns fuel params i st Hd) as [st1 Hq].
  destruct (queryTimes_same fuel i params k st st1 Hd Hq) as (stk & Hk & Hn & Hc).
  exists st1, stk. by rewrite Hn.
Qed.

End EvaluatorProperties.

(** ** Examples *)

Lemma scenario_loads : loadConfiguration scenario = Some scenarioArena.
Proof. by vm_compute. Qed.


(** The first scenario of the spec: one event on which the matcher of
    [N0] reports MATCHED. *)
Example scenario_first_event :
  replay [(7, [kMatched])] (freshEvalState scenarioArena)
  = [([kTrue; kFalse; kFalse], [true; true; true])].
Proof. by vm_compute. Qed.



Lemma isConditionMet_params_idempotent_witness :
  let st := run [OpEvaluate 7 [kMatched]] (freshEvalState scenarioArena) in
  let fuel := S (length (allConditions st)) in
  let params : gmap string HashableDimensionKey := {[ "N0" := [("uid"%string, 7)] ]} in
  ∃ st1 stk,
    isConditionMet_params fuel 2%nat params st = Some st1
    ∧ queryTimes 3 fuel 2%nat params st = Some stk
    ∧ conditionCache stk !! 2%nat = conditionCache st1 !! 2%nat
    ∧ allConditions stk = allConditions st
    ∧ (λ n, result isConditionMet (base n)) <$> allConditions stk
      = (λ n, result isConditionMet (base n)) <$> allConditions st.
Proof.
  apply (isConditionMet_params_idempotent scenario scenarioArena
           [OpEvaluate 7 [kMatched]] 2%nat {[ "N0" := [("uid"%string, 7)] ]} 2%nat).
  by vm_compute.
Defined.

(** ** Names and indices *)

(** C9.  No operation changes the name or the index of a node: not the
    accessors and the setter of the class, not [init], and not a run of
    passes, dimensioned queries and [setSliced] calls over the arena. *)
Theorem name_index_immutable {LogEvent : Type} `{ConditionRules LogEvent}
    (t : ConditionTracker) (b : bool)
    (cfg : StatsdConfig) (fuel i : nat) (s : InitState) (r : bool) (s' : InitState)
    (arena : list Node) (ops : list (Op LogEvent)) (st : EvalState) :
  (mName (after isConditionMet t) = mName t
   ∧ mIndex (after isConditionMet t) = mIndex t)
  ∧ (mName (after getLogTrackerIndex t) = mName t
     ∧ mIndex (after getLogTrackerIndex t) = mIndex t)
  ∧ (mName (after (setSliced b) t) = mName t
     ∧ mIndex (after (setSliced b) t) = mIndex t)
  ∧ (init cfg fuel i s = Some (r, s') →
     identity <$> allConditionTrackers s' = identity <$> allConditionTrackers s)
  ∧ (∃ r' s'', initConditions cfg arena = Some (r', s'')
               ∧ identity <$> allConditionTrackers s'' = identity <$> arena)
  ∧ identity <$> allConditions (run ops st) = identity <$> allConditions st.
Proof.
  repeat split.
  - intros Hinit. apply untouched_identity. by eapply init_untouched.
  - destruct (initConditions_returns cfg arena) as [[r' s''] Hrun].
    exists r', s''. split; [done|]. destruct r'.
    + apply untouched_identity.
      by apply (initEach_untouched _ _ _ _ _ _ (initConditions_true _ _ _ Hrun)).
    + by rewrite (initConditions_false _ _ _ Hrun).
  - apply static_identity, run_static.
Qed.

Lemma name_index_immutable_witness :
  let s := freshInitState (buildArena scenario) in
  let st := freshEvalState scenarioArena in
  let ops := [OpSetSliced 1%nat true; OpEvaluate 7 [kMatched];
              OpQuery 2%nat ∅; OpEvaluate 8 [kMatched]] in
  (∃ r s', init scenario 4 2 s = Some (r, s')
           ∧ identity <$> allConditionTrackers s' = identity <$> allConditionTrackers s)
  ∧ identity <$> allConditions (run ops st) = identity <$> allConditions st.
Proof.
  intros s st ops.
  destruct (init scenario 4 2 s) as [[r s']|] eqn:Hinit; [|by vm_compute in Hinit].
  destruct (name_index_immutable (new_ConditionTracker "N0" 0) true
              scenario 4 2 s r s' scenarioArena ops st)
    as (_ & _ & _ & Hs' & _ & Hrun).
  split; [exists r, s'; split; [done|by apply Hs']|exact Hrun].
Defined.

(** ** Further properties of the class as written *)

Lemma setSliced_after (b : bool) (t : ConditionTracker) :
  after (setSliced b) t = set_mSliced (mSliced t || b) t.
Proof.
  unfold after, setSliced, mbind, Method_bind, get, modify; simpl.
  by rewrite int_to_bool_lor.
Qed.

Lemma set_mSliced_same (t : ConditionTracker) : set_mSliced (mSliced t) t = t.
Proof. by destruct t. Qed.

Lemma setSliced_all_closed (bs : list bool) : ∀ t,
  setSliced_all bs t = set_mSliced (mSliced t || existsb id bs) t.
Proof.
  induction bs as [|b bs IH]; intros t; simpl.
  - by rewrite orb_false_r, set_mSliced_same.
  - rewrite IH, setSliced_after. simpl. by rewrite orb_assoc.
Qed.

Lemma existsb_id_true (bs : list bool) : existsb id bs = true ↔ true ∈ bs.
Proof.
  induction bs as [|b bs IH]; simpl.
  - split; [done|by intros ?%elem_of_nil].
  - rewrite orb_true_iff, IH, elem_of_cons. unfold id.
    split; (intros [Hb|Hin]; [by left|by right]).
Qed.

(** X1. Whatever sequence of calls to [isConditionMet()],
    [getLogTrackerIndex()] and [setSliced] a tracker receives, only
    [mSliced] can change, and it ends as the flag it started with or-ed
    with whether some call was [setSliced(true)]. *)
Theorem callBase_all_closed (cs : list BaseCall) (t : ConditionTracker) :
  callBase_all cs t = set_mSliced (mSliced t || existsb passesTrue cs) t.
Proof.
  revert t. induction cs as [|c cs IH]; intros t; simpl.
  - by rewrite orb_false_r, set_mSliced_same.
  - rewrite IH. destruct c as [| |b]; [done|done|].
    unfold callBase. rewrite setSliced_after. simpl. by rewrite orb_assoc.
Qed.

(** X2. A freshly constructed tracker on which only the member functions
    the class implements are called stays uninitialized, in state UNKNOWN
    and without matchers: [isConditionMet()] returns UNKNOWN and
    [getLogTrackerIndex()] the empty set after any such sequence. *)
Theorem fresh_tracker_stays_unknown (name : string) (index : Z) (cs : list BaseCall) :
  let t := callBase_all cs (new_ConditionTracker name index) in
  result isConditionMet t = kUnknown
  ∧ result getLogTrackerIndex t = ∅
  ∧ mInitialized t = false
  ∧ mSliced t = existsb passesTrue cs.
Proof.
  intros t. unfold t.
  assert (∀ u, mNonSlicedConditionState (callBase_all cs u) = mNonSlicedConditionState u
               ∧ mTrackerIndex (callBase_all cs u) = mTrackerIndex u
               ∧ mInitialized (callBase_all cs u) = mInitialized u
               ∧ mSliced (callBase_all cs u) = mSliced u || existsb passesTrue cs)
    as Hkeep.
  { induction cs as [|c cs IH]; intros u; simpl; [by rewrite orb_false_r|].
    destruct (IH (callBase c u)) as (-> & -> & -> & ->).
    destruct c as [| |b]; [done|done|].
    unfold callBase. rewrite setSliced_after. simpl. by rewrite orb_assoc. }
  by destruct (Hkeep (new_ConditionTracker name index)) as (? & ? & ? & ?).
Qed.

(** X3. What a sequence of [setSliced] calls leaves of a tracker depends
    only on whether some call passed [true]: order and repetition of the
    arguments do not matter. *)
Theorem setSliced_all_same_true (bs cs : list bool) (t : ConditionTracker) :
  (true ∈ bs ↔ true ∈ cs) → setSliced_all bs t = setSliced_all cs t.
Proof.
  intros Hsame. rewrite !setSliced_all_closed. f_equal. f_equal.
  apply eq_true_iff_eq. by rewrite !existsb_id_true.
Qed.

Lemma setSliced_all_same_true_witness :
  let t := new_ConditionTracker "screen_on" 3 in
  (true ∈ [false; true; true] ↔ true ∈ [true; false])
  ∧ setSliced_all [false; true; true] t = setSliced_all [true; false] t.
Proof.
  assert (true ∈ [false; true; true] ↔ true ∈ [true; false]) as Hsame.
  { split; intros _; [by left|right; by left]. }
  split; [exact Hsame|].
  by apply (setSliced_all_same_true [false; true; true] [true; false]
              (new_ConditionTracker "screen_on" 3)).
Defined.

(** X4. [setSliced(false)] changes nothing of a tracker, and on a tracker
    that is already sliced no [setSliced] call changes anything. *)
Theorem setSliced_noop (b : bool) (t : ConditionTracker) :
  after (setSliced false) t = t
  ∧ (mSliced t = true → after (setSliced b) t = t).
Proof.
  rewrite !setSliced_after. split.
  - by rewrite orb_false_r, set_mSliced_same.
  - intros Ht. rewrite Ht. simpl. rewrite <- Ht. apply set_mSliced_same.
Qed.

Lemma setSliced_noop_witness :
  let t := after (setSliced true) (new_ConditionTracker "screen_on" 3) in
  mSliced t = true ∧ after (setSliced false) t = t ∧ after (setSliced true) t = t.
Proof.
  split; [reflexivity|].
  destruct (setSliced_noop true
              (after (setSliced true) (new_ConditionTracker "screen_on" 3)))
    as [Hfalse Htrue].
  split; [exact Hfalse|apply Htrue; reflexivity].
Defined.
